(** * Samplers of [optimizers.py]: gradient ascent and the MCMC family

    A shallow embedding of [src/optimizers.py] and the properties of its
    four classes: [GradientAccent], [MetropolisHastingsMCMC], [LangevinMCMC]
    and [HamiltonyanMCMC].

    Modelling choices.
    - Numbers are the real numbers of the Standard Library ([R], with
      [exp] and [sqrt]); numpy's float64 rounding, overflow and NaN are not
      part of the model.  One effect of float64 is: [np.exp] underflows to
      [0.0], which the real exponential never reaches.  Where a bound on an
      acceptance ratio turns on it, the method is taken with numpy's
      exponential as a parameter ([compute_alpha_with]), of which
      [float_exp] is the instance with the underflow.
    - A numpy array of shape [(D,)] is a [list R].  Arithmetic on arrays is
      element-wise; the model covers operands of one shape (numpy raises or
      broadcasts on others).
    - numpy arrays are mutable objects: they live in a heap and the code
      holds references to them.  [x += e] on an array updates the cell the
      reference points to; [x.copy()] and every array expression allocate a
      fresh cell.  Python has no dangling reference: reading one yields the
      empty array in the model, and a statement about the contents of an
      array assumes its reference is in the heap.
    - The oracle is a caller-supplied pure function from a point to a pair
      (log-value, gradient).  Its results are never mutated by the code and
      are held by value.
    - Every oracle call and every in-place addition is recorded, in order,
      in a trace, so that the order and the number of the steps of a method
      can be stated.
    - The random draws of numpy and scipy are an interface ([Random]); the
      generator state is threaded through every draw.
    - [while not accepted] has no bound in the source: the loop takes fuel
      and reports [OutOfFuel] when it is exhausted. *)

From Stdlib Require Import Reals Lra Psatz ZArith Lia List.
From stdpp Require Import base list.
Import ListNotations.

Local Open Scope R_scope.

(** ** Arrays *)

Abbreviation Vec := (list R).

Definition vadd (u v : Vec) : Vec := zip_with Rplus u v.
Definition vsub (u v : Vec) : Vec := zip_with Rminus u v.
(** [c * v] for a scalar [c] *)
Definition vscale (c : R) (v : Vec) : Vec := map (Rmult c) v.
(** [v / c] for a scalar [c] *)
Definition vdiv (v : Vec) (c : R) : Vec := map (fun x => x / c) v.
(** [v ** 2] *)
Definition vsq (v : Vec) : Vec := map (fun x => x ^ 2) v.
(** [np.sum(v)] *)
Definition vsum (v : Vec) : R := fold_right Rplus 0 v.
(** [np.zeros_like(v)] *)
Definition zeros_like (v : Vec) : Vec := map (fun _ => 0) v.

(** Python's [min(a, b)]: the first argument unless the second is smaller. *)
Definition py_min (a b : R) : R := if Rlt_dec b a then b else a.

(** [a > b] as a test *)
Definition Rgtb (a b : R) : bool := if Rlt_dec b a then true else false.

(** [np.exp] with the underflow of float64: the smallest positive float64
    is [2^-1074], about [exp(-744.4)], and [np.exp(x)] is [0.0] for every
    [x] below about [-745.13].  The test is placed at [-746], where the
    result is [0.0] for certain; above it the exponential is the real
    one. *)
Definition float_exp (x : R) : R := if Rlt_dec x (-746) then 0 else exp x.

(** ** The oracle and the random source *)

Definition OracleResult : Type := R * Vec.
Definition Oracle : Type := Vec -> OracleResult.

(** The draws the code asks of numpy and scipy.  [mvn_rvs mean cov] is
    [multivariate_normal(mean=mean, cov=cov).rvs(size=(1,))], which scipy
    may refuse ([None]); [normal d] is [np.random.normal(size=(d,))];
    [uniform lo hi] is [np.random.uniform(lo, hi)]. *)
Class Random := {
  Rng : Type;
  mvn_rvs : Vec -> R -> Rng -> option (Vec * Rng);
  normal : nat -> Rng -> Vec * Rng;
  uniform : R -> R -> Rng -> R * Rng
}.

(** ** Store, outcomes and the monad of method bodies *)

Abbreviation loc := nat.
Abbreviation Heap := (list (list R)).

Inductive exn : Type :=
| AttributeError   (* an attribute read before it was set *)
| LibraryError.    (* scipy refused the arguments of a draw *)

Inductive res (A : Type) : Type :=
| Ret (a : A)
| Raise (e : exn)
| OutOfFuel.
Arguments Ret {A} a.
Arguments Raise {A} e.
Arguments OutOfFuel {A}.

(** What a method does that can be observed from outside: [Call x] is
    [oracle(x)] on an array of contents [x]; [IAdd l v] is [a += v] on the
    array at [l]. *)
Inductive event : Type :=
| Call (x : Vec)
| IAdd (l : loc) (v : Vec).

Section Monad.
Context {RS : Random}.

(** The state a method runs in: the object [self], the heap of arrays, the
    generator and the trace of events, oldest first. *)
Record St (O : Type) : Type := mkSt {
  self : O;
  heap : Heap;
  rng : Rng;
  trace : list event
}.
Arguments mkSt {O} _ _ _ _.
Arguments self {O} _.
Arguments heap {O} _.
Arguments rng {O} _.
Arguments trace {O} _.

Definition M (O A : Type) : Type := St O -> res (A * St O).

Definition ret {O A} (a : A) : M O A := fun s => Ret (a, s).

Definition bind {O A B} (m : M O A) (k : A -> M O B) : M O B :=
  fun s => match m s with
           | Ret (a, s') => k a s'
           | Raise e => Raise e
           | OutOfFuel => OutOfFuel
           end.

(** read an attribute of [self] *)
Definition attr {O A} (f : O -> A) : M O A := fun s => Ret (f (self s), s).

(** read an attribute that may not have been set yet *)
Definition attr_set {O A} (f : O -> option A) : M O A :=
  fun s => match f (self s) with
           | Some a => Ret (a, s)
           | None => Raise AttributeError
           end.

(** assign attributes of [self] *)
Definition assign {O} (f : O -> O) : M O unit :=
  fun s => Ret (tt, mkSt (f (self s)) (heap s) (rng s) (trace s)).

(** the contents of an array *)
Definition load {O} (l : loc) : M O Vec := fun s => Ret (heap s !!! l, s).

(** a new array object *)
Definition alloc {O} (v : Vec) : M O loc :=
  fun s => Ret (length (heap s), mkSt (self s) (heap s ++ [v]) (rng s) (trace s)).

(** [a += v] on the array [a] *)
Definition iadd {O} (l : loc) (v : Vec) : M O unit :=
  fun s => Ret (tt, mkSt (self s) (<[l := vadd (heap s !!! l) v]> (heap s))
                         (rng s) (trace s ++ [IAdd l v])).

(** [oracle(x)] on the array [x] *)
Definition call_oracle {O} (oracle : Oracle) (l : loc) : M O OracleResult :=
  fun s => let x := heap s !!! l in
           Ret (oracle x, mkSt (self s) (heap s) (rng s) (trace s ++ [Call x])).

Definition draw_mvn {O} (mean : Vec) (cov : R) : M O Vec :=
  fun s => match mvn_rvs mean cov (rng s) with
           | Some (x, g) => Ret (x, mkSt (self s) (heap s) g (trace s))
           | None => Raise LibraryError
           end.

Definition draw_normal {O} (d : nat) : M O Vec :=
  fun s => Ret (fst (normal d (rng s)),
                mkSt (self s) (heap s) (snd (normal d (rng s))) (trace s)).

Definition draw_uniform {O} (lo hi : R) : M O R :=
  fun s => Ret (fst (uniform lo hi (rng s)),
                mkSt (self s) (heap s) (snd (uniform lo hi (rng s))) (trace s)).

(** [while not accepted: body], where [body] yields the value of
    [accepted] at the end of the iteration *)
Fixpoint while_not_accepted {O} (fuel : nat) (body : M O bool) : M O unit :=
  match fuel with
  | O => fun _ => OutOfFuel
  | S n => bind body (fun accepted =>
             if accepted then ret tt else while_not_accepted n body)
  end.

(** [for i in xs: body] *)
Fixpoint for_each {O} (xs : list Z) (body : Z -> M O unit) : M O unit :=
  match xs with
  | [] => ret tt
  | i :: rest => bind (body i) (fun _ => for_each rest body)
  end.

End Monad.

Arguments mkSt {RS O} _ _ _ _.
Arguments self {RS O} _.
Arguments heap {RS O} _.
Arguments rng {RS O} _.
Arguments trace {RS O} _.

Notation "x <- c1 ;; c2" := (bind c1 (fun x => c2))
  (at level 100, c1 at next level, right associativity).
Notation "c1 ;; c2" := (bind c1 (fun _ => c2))
  (at level 100, right associativity).

(** [range(n)] *)
Definition range (n : Z) : list Z := map Z.of_nat (seq 0 (Z.to_nat n)).

(** ** class GradientAccent *)

Module GradientAccent.
Section GradientAccent.
Context {RS : Random}.

Record obj : Type := mkObj {
  oracle : Oracle;
  number_of_steps : Z;
  lr : R;
  current : option loc
}.

Definition default_lr : R := 1 / 10.

(** [GradientAccent(oracle, lr)] *)
Definition new (oracle : Oracle) (lr : R) : res obj :=
  Ret {| oracle := oracle; number_of_steps := 0; lr := lr; current := None |}.

Definition initialize (intialization : loc) : M obj unit :=
  assign (fun o => mkObj (oracle o) (number_of_steps o) (lr o) (Some intialization)).

Definition update : M obj R :=
  f <- attr oracle ;;
  x <- attr_set current ;;
  r <- call_oracle f x ;;
  let value := fst r in
  let grad := snd r in
  c <- attr_set current ;;
  a <- attr lr ;;
  iadd c (vscale a grad) ;;
  n <- attr number_of_steps ;;
  assign (fun o => mkObj (oracle o) (n + 1) (lr o) (current o)) ;;
  ret value.

End GradientAccent.
End GradientAccent.

(** ** class MetropolisHastingsMCMC *)

Module MetropolisHastingsMCMC.
Section MetropolisHastingsMCMC.
Context {RS : Random}.

(** The attributes of an object of the family.  [current] and
    [current_value] exist once [initialize] has run; [L] exists on objects
    of the subclass [HamiltonyanMCMC] only. *)
Record obj : Type := mkObj {
  oracle : Oracle;
  lr : R;
  lr_decay : R;
  number_of_steps : Z;
  current : option loc;
  current_value : option OracleResult;
  L : option Z
}.

Definition set_lr (x : R) (o : obj) : obj :=
  mkObj (oracle o) x (lr_decay o) (number_of_steps o) (current o) (current_value o) (L o).
Definition set_number_of_steps (n : Z) (o : obj) : obj :=
  mkObj (oracle o) (lr o) (lr_decay o) n (current o) (current_value o) (L o).
Definition set_current (c : loc) (o : obj) : obj :=
  mkObj (oracle o) (lr o) (lr_decay o) (number_of_steps o) (Some c) (current_value o) (L o).
Definition set_current_value (v : OracleResult) (o : obj) : obj :=
  mkObj (oracle o) (lr o) (lr_decay o) (number_of_steps o) (current o) (Some v) (L o).
Definition set_L (n : Z) (o : obj) : obj :=
  mkObj (oracle o) (lr o) (lr_decay o) (number_of_steps o) (current o) (current_value o) (Some n).

Definition default_lr : R := 1 / 10.
Definition default_lr_decay : R := 1.

(** [MetropolisHastingsMCMC(oracle, lr, lr_decay)] *)
Definition new (oracle : Oracle) (lr lr_decay : R) : res obj :=
  Ret {| oracle := oracle; lr := lr; lr_decay := lr_decay; number_of_steps := 0;
         current := None; current_value := None; L := None |}.

Definition initialize (initialization : loc) : M obj unit :=
  assign (set_current initialization) ;;
  f <- attr oracle ;;
  c <- attr_set current ;;
  v <- call_oracle f c ;;
  assign (set_current_value v).

Definition transition : M obj loc :=
  c <- attr_set current ;;
  mean <- load c ;;
  cov <- attr lr ;;
  x <- draw_mvn mean cov ;;
  alloc x.

Definition compute_alpha (new : loc) (new_value : OracleResult) : M obj R :=
  cv <- attr_set current_value ;;
  let symmetric_part := exp (fst new_value - fst cv) in
  ret (py_min 1 symmetric_part).

(** [compute_alpha] with [np.exp] as a parameter; [compute_alpha] is the
    instance at the real exponential. *)
Definition compute_alpha_with (np_exp : R -> R) (new : loc) (new_value : OracleResult)
  : M obj R :=
  cv <- attr_set current_value ;;
  let symmetric_part := np_exp (fst new_value - fst cv) in
  ret (py_min 1 symmetric_part).

(** The methods [update] reaches through [self]: the subclass decides
    which [transition] and [compute_alpha] run. *)
Section Update.
Variable self_transition : M obj loc.
Variable self_compute_alpha : loc -> OracleResult -> M obj R.

(** one iteration of the [while] loop of [update] *)
Definition update_body : M obj bool :=
  new <- self_transition ;;
  f <- attr oracle ;;
  new_value <- call_oracle f new ;;
  alpha <- self_compute_alpha new new_value ;;
  th <- draw_uniform 0 1 ;;
  a <- attr lr ;;
  d <- attr lr_decay ;;
  assign (set_lr (a * d)) ;;
  accepted <- (if Rgtb alpha th
               then assign (set_current new) ;;
                    assign (set_current_value new_value) ;;
                    ret true
               else ret false) ;;
  n <- attr number_of_steps ;;
  assign (set_number_of_steps (n + 1)) ;;
  ret accepted.

Definition update_with (fuel : nat) : M obj R :=
  old_lr <- attr lr ;;
  while_not_accepted fuel update_body ;;
  assign (set_lr old_lr) ;;
  cv <- attr_set current_value ;;
  ret (fst cv).

End Update.

Definition update : nat -> M obj R := update_with transition compute_alpha.

End MetropolisHastingsMCMC.
End MetropolisHastingsMCMC.

(** ** class LangevinMCMC(MetropolisHastingsMCMC) *)

Module LangevinMCMC.
Import MetropolisHastingsMCMC.
Section LangevinMCMC.
Context {RS : Random}.

Definition new (oracle : Oracle) (lr lr_decay : R) : res obj :=
  MetropolisHastingsMCMC.new oracle lr lr_decay.

Definition transition : M obj loc :=
  c0 <- attr_set current ;;
  x0 <- load c0 ;;
  noise <- draw_mvn (zeros_like x0) 1 ;;
  c <- attr_set current ;;
  x <- load c ;;
  a <- attr lr ;;
  cv <- attr_set current_value ;;
  a' <- attr lr ;;
  alloc (vadd (vadd x (vscale a (snd cv))) (vscale (sqrt (2 * a')) noise)).

Definition proposal_a_given_b (a b : loc) (a_value b_value : OracleResult) : M obj R :=
  va <- load a ;;
  vb <- load b ;;
  s <- attr lr ;;
  let val := vsub (vsub va vb) (vscale s (snd b_value)) in
  s' <- attr lr ;;
  ret ((- vsum (vsq val)) / (4 * s')).

Definition compute_alpha (new : loc) (new_value : OracleResult) : M obj R :=
  cv <- attr_set current_value ;;
  let symmetric_part := exp (fst new_value - fst cv) in
  c1 <- attr_set current ;;
  cv1 <- attr_set current_value ;;
  b1 <- proposal_a_given_b c1 new cv1 new_value ;;
  c2 <- attr_set current ;;
  cv2 <- attr_set current_value ;;
  b2 <- proposal_a_given_b new c2 new_value cv2 ;;
  let assymetric_part := exp (b1 - b2) in
  ret (py_min 1 (symmetric_part * assymetric_part)).

Definition update : nat -> M obj R := update_with transition compute_alpha.

End LangevinMCMC.
End LangevinMCMC.

(** ** class HamiltonyanMCMC(MetropolisHastingsMCMC) *)

Module HamiltonyanMCMC.
Import MetropolisHastingsMCMC.
Section HamiltonyanMCMC.
Context {RS : Random}.

Definition default_L : Z := 10.

Definition new (oracle : Oracle) (lr lr_decay : R) (L : Z) : res obj :=
  match MetropolisHastingsMCMC.new oracle lr lr_decay with
  | Ret o => Ret (set_L L o)
  | Raise e => Raise e
  | OutOfFuel => OutOfFuel
  end.

(** the body of [for i in range(self.L)], on the arrays [q] and [p] *)
Definition leapfrog_body (q p : loc) (i : Z) : M obj unit :=
  a <- attr lr ;;
  vp <- load p ;;
  iadd q (vscale a vp) ;;
  n <- attr_set L ;;
  if negb (i =? n - 1)%Z
  then a' <- attr lr ;;
       f <- attr oracle ;;
       r <- call_oracle f q ;;
       iadd p (vscale a' (snd r))
  else ret tt.

Definition transition : M obj (loc * OracleResult * R) :=
  c <- attr_set current ;;
  x <- load c ;;
  q <- alloc x ;;
  c' <- attr_set current ;;
  x' <- load c' ;;
  z <- draw_normal (length x') ;;
  p <- alloc z ;;
  vp <- load p ;;
  current_p <- alloc vp ;;
  a <- attr lr ;;
  cv <- attr_set current_value ;;
  iadd p (vdiv (vscale a (snd cv)) 2) ;;
  n <- attr_set L ;;
  for_each (range n) (leapfrog_body q p) ;;
  f <- attr oracle ;;
  new_value <- call_oracle f q ;;
  a' <- attr lr ;;
  iadd p (vdiv (vscale a' (snd new_value)) 2) ;;
  let proposed_u := - fst new_value in
  cv' <- attr_set current_value ;;
  let current_u := - fst cv' in
  vcp <- load current_p ;;
  let current_k := vsum (vsq vcp) / 2 in
  vp' <- load p ;;
  let proposed_k := vsum (vsq vp') / 2 in
  let alpha := exp (current_u - proposed_u + current_k - proposed_k) in
  ret (q, new_value, alpha).

(** one iteration of the [while] loop of [update] *)
Definition update_body : M obj bool :=
  t <- transition ;;
  let new := fst (fst t) in
  let new_value := snd (fst t) in
  let alpha := snd t in
  th <- draw_uniform 0 1 ;;
  a <- attr lr ;;
  d <- attr lr_decay ;;
  assign (set_lr (a * d)) ;;
  accepted <- (if Rgtb alpha th
               then assign (set_current new) ;;
                    assign (set_current_value new_value) ;;
                    ret true
               else ret false) ;;
  n <- attr number_of_steps ;;
  assign (set_number_of_steps (n + 1)) ;;
  ret accepted.

Definition update (fuel : nat) : M obj R :=
  old_lr <- attr lr ;;
  while_not_accepted fuel update_body ;;
  assign (set_lr old_lr) ;;
  cv <- attr_set current_value ;;
  ret (fst cv).

End HamiltonyanMCMC.
End HamiltonyanMCMC.

(** ** The family by class, and runs of the retry loop *)

Inductive sampler : Type := MetropolisHastings | Langevin | Hamiltonyan.

Section Family.
Context {RS : Random}.
Import MetropolisHastingsMCMC.

(** [update()] on an object of the class *)
Definition update_of (k : sampler) : nat -> M obj R :=
  match k with
  | MetropolisHastings => MetropolisHastingsMCMC.update
  | Langevin => LangevinMCMC.update
  | Hamiltonyan => HamiltonyanMCMC.update
  end.

(** one attempt: one iteration of the loop of [update()] *)
Definition attempt_of (k : sampler) : M obj bool :=
  match k with
  | MetropolisHastings =>
      update_body MetropolisHastingsMCMC.transition MetropolisHastingsMCMC.compute_alpha
  | Langevin => update_body LangevinMCMC.transition LangevinMCMC.compute_alpha
  | Hamiltonyan => HamiltonyanMCMC.update_body
  end.

(** the first part of an attempt: the candidate proposed, the oracle's
    result there and the acceptance ratio *)
Definition evaluation_of (k : sampler) : M obj (loc * OracleResult * R) :=
  match k with
  | MetropolisHastings =>
      new <- MetropolisHastingsMCMC.transition ;;
      f <- attr oracle ;;
      new_value <- call_oracle f new ;;
      alpha <- MetropolisHastingsMCMC.compute_alpha new new_value ;;
      ret (new, new_value, alpha)
  | Langevin =>
      new <- LangevinMCMC.transition ;;
      f <- attr oracle ;;
      new_value <- call_oracle f new ;;
      alpha <- LangevinMCMC.compute_alpha new new_value ;;
      ret (new, new_value, alpha)
  | Hamiltonyan => HamiltonyanMCMC.transition
  end.

(** [rejections body n s s']: [n] iterations in a row from [s], each one
    ending with [accepted] false, lead to [s']. *)
Inductive rejections {O} (body : M O bool) : nat -> St O -> St O -> Prop :=
| rejections_O s : rejections body 0%nat s s
| rejections_S n s s1 s2 :
    body s = Ret (false, s1) -> rejections body n s1 s2 ->
    rejections body (S n) s s2.

End Family.

(** ** The leapfrog loop on values *)

Definition is_call (e : event) : bool :=
  match e with Call _ => true | IAdd _ _ => false end.

Definition is_iadd (l : loc) (e : event) : bool :=
  match e with Call _ => false | IAdd l' _ => Nat.eqb l' l end.

(** how many oracle calls, and how many in-place additions to the array
    at [l], a trace holds *)
Definition count_calls (ev : list event) : nat := length (List.filter is_call ev).
Definition count_iadd (l : loc) (ev : list event) : nat :=
  length (List.filter (is_iadd l) ev).

Section Leapfrog.
Variable f : Oracle.
Variable a : R.        (* the stepsize *)
Variables ql pl : loc. (* where [q] and [p] live *)

(** The loop of [HamiltonyanMCMC.transition] on the contents of [q] and
    [p], with the events it leaves; [n] is [self.L]. *)
Fixpoint leapfrog_loop (n : Z) (idx : list Z) (q p : Vec) : Vec * Vec * list event :=
  match idx with
  | [] => (q, p, [])
  | i :: rest =>
      let q' := vadd q (vscale a p) in
      if negb (i =? n - 1)%Z
      then let d := vscale a (snd (f q')) in
           let '(qf, pf, ev) := leapfrog_loop n rest q' (vadd p d) in
           (qf, pf, IAdd ql (vscale a p) :: Call q' :: IAdd pl d :: ev)
      else let '(qf, pf, ev) := leapfrog_loop n rest q' p in
           (qf, pf, IAdd ql (vscale a p) :: ev)
  end.

(** The integrator as the specification words it: a full-step position
    update is [q += stepsize * p]; a full-step momentum update uses the
    gradient at the current [q]; a half-step momentum update uses half of
    that. *)
Definition position_update (st : Vec * Vec * list event) : Vec * Vec * list event :=
  let '(q, p, ev) := st in
  (vadd q (vscale a p), p, ev ++ [IAdd ql (vscale a p)]).

Definition momentum_update (st : Vec * Vec * list event) : Vec * Vec * list event :=
  let '(q, p, ev) := st in
  let d := vscale a (snd (f q)) in
  (q, vadd p d, ev ++ [Call q; IAdd pl d]).

Definition half_momentum_update (g : Vec) (st : Vec * Vec * list event)
  : Vec * Vec * list event :=
  let '(q, p, ev) := st in
  let d := vdiv (vscale a g) 2 in
  (q, vadd p d, ev ++ [IAdd pl d]).

(** one position update, then [n] times a momentum update followed by a
    position update *)
Definition spec_leapfrog (n : nat) (st : Vec * Vec * list event) : Vec * Vec * list event :=
  Nat.iter n (fun st => position_update (momentum_update st)) (position_update st).

End Leapfrog.

(** [oracle(q)] at the end of the trajectory, as an event *)
Definition final_evaluation (st : Vec * Vec * list event) : Vec * Vec * list event :=
  let '(q, p, ev) := st in (q, p, ev ++ [Call q]).

(** events that happened before a trajectory *)
Definition prefix_events (e : list event) (st : Vec * Vec * list event)
  : Vec * Vec * list event :=
  let '(q, p, ev) := st in (q, p, e ++ ev).

(** ** The Langevin proposal density as the specification words it *)

(** the log-density of proposing [a] when at [b], from the gradient at [b] *)
Definition transition_log_density (stepsize : R) (a b : Vec)
           (a_value b_value : OracleResult) : R :=
  (- vsum (vsq (vsub (vsub a b) (vscale stepsize (snd b_value))))) / (4 * stepsize).

(** ** The candidate of an attempt, by stepsize *)

Section Proposal.
Context {RS : Random}.
Import MetropolisHastingsMCMC.



End Proposal.

(** ** A deterministic random source and a small target, for concrete runs *)

(** The log-value falls by one per unit along each axis; the gradient is
    constant. *)
Definition demo_oracle : Oracle := fun x => (- vsum x, map (fun _ => -1) x).

(** A generator whose state counts the draws made.  A proposal is the mean
    moved by [cov] along each axis, momenta are zero, and the uniform draw
    is the midpoint for the first two draws of the generator and the lower
    bound afterwards. *)
Definition demo_random : Random := {|
  Rng := nat;
  mvn_rvs := fun mean cov g => Some (map (fun m => m + cov) mean, S g);
  normal := fun d g => (repeat 0 d, S g);
  uniform := fun lo hi g => (if Nat.ltb g 2 then (lo + hi) / 2 else lo, S g)
|}.

(** ** What one attempt of the retry loop does to [self] *)

Section AttemptPost.
Context {RS : Random}.
Import MetropolisHastingsMCMC.

(** After one iteration started in [s] and ended in [s'] with [accepted]
    equal to [b]: the stepsize has been multiplied by the decay and the
    step counter has grown by one; the candidate was proposed and scored
    in [s], with [self] as it was there; [b] is the comparison of the
    ratio with the uniform draw that follows; a rejection leaves the
    position alone and an acceptance installs the candidate. *)
Definition attempt_post (k : sampler) (s : St obj) (b : bool) (s' : St obj) : Prop :=
  oracle (self s') = oracle (self s) /\
  lr (self s') = lr (self s) * lr_decay (self s) /\
  lr_decay (self s') = lr_decay (self s) /\
  number_of_steps (self s') = (number_of_steps (self s) + 1)%Z /\
  L (self s') = L (self s) /\
  (b = false -> current (self s') = current (self s) /\
                current_value (self s') = current_value (self s)) /\
  exists cand nv alpha s1,
    evaluation_of k s = Ret ((cand, nv, alpha), s1) /\
    self s1 = self s /\
    b = Rgtb alpha (fst (uniform 0 1 (rng s1))) /\
    (b = true -> current (self s') = Some cand /\
                 current_value (self s') = Some nv).

End AttemptPost.

(** ** Concrete states *)

Section Demo.
Import MetropolisHastingsMCMC.

(** An initialised sampler of class [k] at the origin of the line, with
    stepsize 1 and decay 1/2 (and [L = 2] for the Hamiltonian class). *)
Definition demo_obj (k : sampler) : obj :=
  {| oracle := demo_oracle; lr := 1; lr_decay := 1 / 2; number_of_steps := 0;
     current := Some 0%nat; current_value := Some (demo_oracle [0]);
     L := match k with Hamiltonyan => Some 2%Z | _ => None end |}.

Definition demo_state (k : sampler) : @St demo_random obj :=
  @mkSt demo_random obj (demo_obj k) [[0]] 0%nat [].

(** the Metropolis-Hastings state after one attempt, which is rejected *)
Definition demo_state1 : @St demo_random obj :=
  @mkSt demo_random obj
    (set_number_of_steps 1 (set_lr (1 * (1 / 2)) (demo_obj MetropolisHastings)))
    [[0]; [0 + 1]] 2%nat [Call [0 + 1]].

(** and after a second attempt, which is accepted *)
Definition demo_state2 : @St demo_random obj :=
  @mkSt demo_random obj
    (set_number_of_steps 2
       (set_current_value (demo_oracle [0 + 1 * (1 / 2)])
          (set_current 2%nat
             (set_lr (1 * (1 / 2) * (1 / 2)) (demo_obj MetropolisHastings)))))
    [[0]; [0 + 1]; [0 + 1 * (1 / 2)]] 4%nat [Call [0 + 1]; Call [0 + 1 * (1 / 2)]].


(** an initialised gradient ascent at the origin *)
Definition demo_ascent : @St demo_random GradientAccent.obj :=
  @mkSt demo_random GradientAccent.obj
    (GradientAccent.mkObj demo_oracle 0 (1 / 10) (Some 0%nat)) [[0]] 0%nat [].

End Demo.

(** ** What an attempt allocates and calls *)

(** the arrays one attempt creates: the candidate, and for the Hamiltonian
    class the two momenta as well *)
Definition cells_per_attempt (k : sampler) : nat :=
  match k with Hamiltonyan => 3%nat | _ => 1%nat end.

(** the oracle calls of one attempt: one, or for the Hamiltonian class one
    per leapfrog step after the first plus the final one *)
Definition calls_per_attempt (k : sampler) (o : MetropolisHastingsMCMC.obj) : nat :=
  match k with
  | Hamiltonyan =>
      match MetropolisHastingsMCMC.L o with
      | Some n => Z.to_nat (Z.max n 1)
      | None => 0%nat
      end
  | _ => 1%nat
  end.

Section Effects.
Context {RS : Random}.
Import MetropolisHastingsMCMC.

(** What one iteration does to the heap and the trace: it appends arrays
    and events, adds in place to new arrays only, and on acceptance the
    position is the first new array, with the oracle's result there. *)
Definition attempt_effect (k : sampler) (s : St obj) (b : bool) (s' : St obj) : Prop :=
  exists new ev,
    heap s' = heap s ++ new /\ length new = cells_per_attempt k /\
    trace s' = trace s ++ ev /\ count_calls ev = calls_per_attempt k (self s) /\
    (forall l v, In (IAdd l v) ev -> (length (heap s) <= l)%nat) /\
    (b = true ->
       current (self s') = Some (length (heap s)) /\
       current_value (self s') = Some (oracle (self s) (heap s' !!! length (heap s)))).

(** an object on which [initialize] has run (and, for the Hamiltonian
    class, that has its [L]) *)
Definition initialised (k : sampler) (s : St obj) : Prop :=
  current (self s) <> None /\ current_value (self s) <> None /\
  (k = Hamiltonyan -> L (self s) <> None).

(** The loop of the script at the end of the file, for [n] iterations and
    a burn-in of [burn]:
    [for i in range(n): mcmc.update(); next = mcmc.current;
     if i > burn: values.append(next)]. *)
Fixpoint run_chain (k : sampler) (fuel : nat) (burn : Z) (idx : list Z)
         (values : list loc) : M obj (list loc) :=
  match idx with
  | [] => ret values
  | i :: rest =>
      bind (update_of k fuel) (fun _ =>
      bind (attr_set current) (fun next =>
      run_chain k fuel burn rest
                (if (burn <? i)%Z then values ++ [next] else values)))
  end.

End Effects.

(** ** More concrete states *)

Section MoreDemo.
Import MetropolisHastingsMCMC.

(** A source of draws that refuses a covariance that is not positive, as
    scipy does; otherwise as [demo_random]. *)
Definition strict_random : Random := {|
  Rng := nat;
  mvn_rvs := fun mean cov g =>
    if Rlt_dec 0 cov then Some (map (fun m => m + cov) mean, S g) else None;
  normal := fun d g => (repeat 0 d, S g);
  uniform := fun lo hi g => (if Nat.ltb g 2 then (lo + hi) / 2 else lo, S g)
|}.

(** an initialised Metropolis-Hastings sampler with stepsize 1 and decay -1 *)
Definition strict_obj : obj :=
  mkObj demo_oracle 1 (-1) 0 (Some 0%nat) (Some (demo_oracle [0])) None.

Definition strict_state : @St strict_random obj :=
  @mkSt strict_random obj strict_obj [[0]] 0%nat [].

(** the state after its first attempt, which is rejected: the stepsize is
    negative *)
Definition strict_state1 : @St strict_random obj :=
  @mkSt strict_random obj
    (set_number_of_steps 1 (set_lr (1 * -1) strict_obj))
    [[0]; [0 + 1]] 2%nat [Call [0 + 1]].

(** a sampler that was constructed and not initialised *)
Definition fresh_state (k : sampler) : @St demo_random obj :=
  @mkSt demo_random obj
    (mkObj demo_oracle 1 (1 / 2) 0 None None
           match k with Hamiltonyan => Some 2%Z | _ => None end)
    [] 0%nat [].

(** a target whose log-value rises along each axis *)
Definition rising_oracle : Oracle := fun x => (vsum x, map (fun _ => 1) x).

Definition rising_state : @St demo_random obj :=
  @mkSt demo_random obj
    (mkObj rising_oracle 1 (1 / 2) 0 (Some 0%nat) (Some (rising_oracle [0])) None)
    [[0]] 0%nat [].

(** a flat target: constant log-value, zero gradient *)
Definition flat_oracle : Oracle := fun x => (0, zeros_like x).

Definition flat_state (k : sampler) : @St demo_random obj :=
  @mkSt demo_random obj
    (mkObj flat_oracle 1 (1 / 2) 0 (Some 0%nat) (Some (flat_oracle [0]))
           match k with Hamiltonyan => Some 2%Z | _ => None end)
    [[0]] 0%nat [].

(** a Hamiltonian sampler with [L = 0] *)
Definition demo_state_L0 : @St demo_random obj :=
  @mkSt demo_random obj
    (mkObj demo_oracle 1 (1 / 2) 0 (Some 0%nat) (Some (demo_oracle [0])) (Some 0%Z))
    [[0]] 0%nat [].

(** a Hamiltonian sampler whose generator has made two draws already *)
Definition demo_state_late : @St demo_random obj :=
  @mkSt demo_random obj (demo_obj Hamiltonyan) [[0]] 2%nat [].

End MoreDemo.

(** * Properties *)

(** ** Arrays and the heap *)

Lemma heap_at_q (h : Heap) (q : Vec) (r : Heap) : (h ++ q :: r) !!! length h = q.
Proof. apply list_lookup_total_middle. reflexivity. Qed.

Lemma heap_at_p (h : Heap) (q p : Vec) (r : Heap) :
  (h ++ q :: p :: r) !!! S (length h) = p.
Proof.
  change (h ++ q :: p :: r) with (h ++ [q] ++ p :: r).
  rewrite app_assoc. apply list_lookup_total_middle.
  rewrite length_app. simpl. lia.
Qed.

Lemma heap_at_cp (h : Heap) (q p cp : Vec) (r : Heap) :
  (h ++ q :: p :: cp :: r) !!! S (S (length h)) = cp.
Proof.
  change (h ++ q :: p :: cp :: r) with (h ++ [q; p] ++ cp :: r).
  rewrite app_assoc. apply list_lookup_total_middle.
  rewrite length_app. simpl. lia.
Qed.

Lemma heap_set_q (h : Heap) (q v : Vec) (r : Heap) :
  <[length h := v]> (h ++ q :: r) = h ++ v :: r.
Proof.
  replace (length h) with (length h + 0)%nat by lia.
  rewrite insert_app_r. reflexivity.
Qed.

Lemma heap_set_p (h : Heap) (q p v : Vec) (r : Heap) :
  <[S (length h) := v]> (h ++ q :: p :: r) = h ++ q :: v :: r.
Proof.
  replace (S (length h)) with (length h + 1)%nat by lia.
  rewrite insert_app_r. reflexivity.
Qed.


Lemma vadd_zeros (x : Vec) (c : R) : vadd x (vscale c (zeros_like x)) = x.
Proof.
  induction x as [|y x IH]; simpl; [reflexivity|].
  unfold vadd, vscale, zeros_like in *. simpl. rewrite IH. f_equal. lra.
Qed.

Lemma vsum_self_zero (x : Vec) (c : R) :
  vsum (vsq (vsub (vsub x x) (vscale c (zeros_like x)))) = 0.
Proof.
  unfold vsum, vsq, vsub, vscale, zeros_like.
  induction x as [|y x IH]; cbn [map zip_with fold_right]; [reflexivity|].
  rewrite IH. lra.
Qed.

Lemma py_min_Rmin (x : R) : py_min 1 x = Rmin 1 x.
Proof.
  unfold py_min, Rmin. destruct (Rlt_dec x 1), (Rle_dec 1 x); lra.
Qed.

(** ** The exponential, real and with underflow *)

Lemma exp_ge_1 (x : R) : 0 <= x -> 1 <= exp x.
Proof.
  intros H. rewrite <- exp_0. destruct (Req_dec x 0) as [E|E].
  - rewrite E. lra.
  - left. apply exp_increasing. lra.
Qed.

Lemma float_exp_nonneg (x : R) : 0 <= float_exp x.
Proof.
  unfold float_exp. destruct (Rlt_dec x (-746)); [lra | left; apply exp_pos].
Qed.

Lemma float_exp_ge_1 (x : R) : 0 <= x -> 1 <= float_exp x.
Proof.
  intros H. unfold float_exp.
  destruct (Rlt_dec x (-746)); [lra | apply exp_ge_1; exact H].
Qed.

Lemma float_exp_underflow (x : R) : x < -746 -> float_exp x = 0.
Proof.
  intros H. unfold float_exp. destruct (Rlt_dec x (-746)); [reflexivity | contradiction].
Qed.

Lemma Rgtb_true (a b : R) : b < a -> Rgtb a b = true.
Proof. intros H. unfold Rgtb. destruct (Rlt_dec b a); [reflexivity | contradiction]. Qed.

Lemma Rgtb_false (a b : R) : a <= b -> Rgtb a b = false.
Proof. intros H. unfold Rgtb. destruct (Rlt_dec b a); [lra | reflexivity]. Qed.

(** ** Running method bodies *)

Ltac mrun :=
  cbv beta iota zeta delta
      [bind ret attr attr_set assign load alloc iadd call_oracle draw_normal
       draw_uniform self heap rng trace fst snd
       MetropolisHastingsMCMC.oracle MetropolisHastingsMCMC.lr
       MetropolisHastingsMCMC.lr_decay MetropolisHastingsMCMC.number_of_steps
       MetropolisHastingsMCMC.current MetropolisHastingsMCMC.current_value
       MetropolisHastingsMCMC.L MetropolisHastingsMCMC.set_lr
       MetropolisHastingsMCMC.set_number_of_steps MetropolisHastingsMCMC.set_current
       MetropolisHastingsMCMC.set_current_value MetropolisHastingsMCMC.set_L] in *.

(** case analysis on every test a run in [H] went through *)
Ltac minv H :=
  repeat (mrun;
    match type of H with
    | context [match ?x with _ => _ end] =>
        lazymatch x with
        | context [match _ with _ => _ end] => fail
        | _ => destruct x eqn:?; try discriminate H
        end
    end);
  mrun; try discriminate H.

Ltac attempt_done :=
  (repeat split; try reflexivity; try (intros; discriminate));
  eexists; eexists; eexists; eexists;
  (split; [reflexivity|]); (split; [reflexivity|]);
  mrun; repeat match goal with E : _ = _ |- _ => rewrite E end;
  (split; [reflexivity|]); intros; try discriminate;
  try (split; reflexivity).

Lemma bind_inv {RS : Random} {O A B} (m : M O A) (k : A -> M O B) s r :
  bind m k s = Ret r -> exists a s1, m s = Ret (a, s1) /\ k a s1 = Ret r.
Proof.
  unfold bind. destruct (m s) as [[a s1]| |]; try discriminate.
  intros H. exists a, s1. split; [reflexivity | exact H].
Qed.

(** ** GradientAccent *)

Section GradientAccentFacts.
Context {RS : Random}.
Import GradientAccent.

Lemma GradientAccent_update_run (s : St obj) (l : loc) :
  current (self s) = Some l ->
  update s =
    Ret (fst (oracle (self s) (heap s !!! l)),
         mkSt (mkObj (oracle (self s)) (number_of_steps (self s) + 1) (lr (self s)) (Some l))
              (<[l := vadd (heap s !!! l)
                        (vscale (lr (self s)) (snd (oracle (self s) (heap s !!! l))))]> (heap s))
              (rng s)
              (trace s ++ [Call (heap s !!! l);
                           IAdd l (vscale (lr (self s)) (snd (oracle (self s) (heap s !!! l))))])).
Proof.
  intros H. destruct s as [o h g t]. destruct o as [f n a c]. simpl in *. subst c.
  unfold update, bind, attr, attr_set, call_oracle, iadd, assign, ret. simpl.
  rewrite <- app_assoc. reflexivity.
Qed.

Lemma GradientAccent_update_inv (s : St obj) v s' :
  update s = Ret (v, s') -> exists l, current (self s) = Some l.
Proof.
  destruct (current (self s)) as [l|] eqn:E; [eauto|].
  destruct s as [o h g t]. destruct o as [f n a c]. simpl in E. subst c.
  unfold update, bind, attr, attr_set. simpl. discriminate.
Qed.

End GradientAccentFacts.

(** ** The leapfrog loop: from the heap to values, from the loop to the
       integrator of the specification *)

Section LeapfrogFacts.
Variable f : Oracle.
Variable a : R.
Variables ql pl : loc.

Lemma position_update_prefix e st :
  position_update a ql (prefix_events e st) = prefix_events e (position_update a ql st).
Proof. destruct st as [[q p] ev]. simpl. rewrite app_assoc. reflexivity. Qed.

Lemma momentum_update_prefix e st :
  momentum_update f a pl (prefix_events e st) = prefix_events e (momentum_update f a pl st).
Proof. destruct st as [[q p] ev]. simpl. rewrite app_assoc. reflexivity. Qed.

Lemma spec_leapfrog_prefix n e st :
  spec_leapfrog f a ql pl n (prefix_events e st) =
  prefix_events e (spec_leapfrog f a ql pl n st).
Proof.
  unfold spec_leapfrog. induction n as [|n IH]; simpl.
  - apply position_update_prefix.
  - rewrite IH, momentum_update_prefix, position_update_prefix. reflexivity.
Qed.

Lemma spec_leapfrog_S n st :
  spec_leapfrog f a ql pl (S n) st =
  spec_leapfrog f a ql pl n (momentum_update f a pl (position_update a ql st)).
Proof. unfold spec_leapfrog. rewrite Nat.iter_succ_r. reflexivity. Qed.

(** The loop over the last [S m] indices of [range(L)]: [m] iterations
    that update both arrays, then the one that skips the momentum. *)
Lemma leapfrog_loop_suffix (L : Z) (m k : nat) (q p : Vec) :
  Z.of_nat (k + S m) = L ->
  leapfrog_loop f a ql pl L (map Z.of_nat (seq k (S m))) q p =
  spec_leapfrog f a ql pl m (q, p, []).
Proof.
  revert k q p. induction m as [|m IH]; intros k q p HL.
  - simpl. replace (Z.of_nat k =? L - 1)%Z with true by (symmetry; apply Z.eqb_eq; lia).
    reflexivity.
  - change (map Z.of_nat (seq k (S (S m))))
      with (Z.of_nat k :: map Z.of_nat (seq (S k) (S m))).
    cbn [leapfrog_loop].
    replace (Z.of_nat k =? L - 1)%Z with false by (symmetry; apply Z.eqb_neq; lia).
    cbn [negb]. cbv zeta.
    rewrite IH by lia.
    rewrite spec_leapfrog_S.
    change (momentum_update f a pl (position_update a ql (q, p, [])))
      with (prefix_events
              [IAdd ql (vscale a p); Call (vadd q (vscale a p));
               IAdd pl (vscale a (snd (f (vadd q (vscale a p)))))]
              (vadd q (vscale a p), vadd p (vscale a (snd (f (vadd q (vscale a p))))), [])).
    rewrite spec_leapfrog_prefix.
    destruct (spec_leapfrog f a ql pl m _) as [[qf pf] ev]. reflexivity.
Qed.

Lemma leapfrog_loop_range (L : Z) (q p : Vec) :
  (1 <= L)%Z ->
  leapfrog_loop f a ql pl L (range L) q p =
  spec_leapfrog f a ql pl (Z.to_nat L - 1) (q, p, []).
Proof.
  intros HL. unfold range.
  replace (Z.to_nat L) with (S (Z.to_nat L - 1)) at 1 by lia.
  apply leapfrog_loop_suffix. lia.
Qed.

Lemma count_calls_app e1 e2 : count_calls (e1 ++ e2) = (count_calls e1 + count_calls e2)%nat.
Proof. unfold count_calls. rewrite List.filter_app, length_app. reflexivity. Qed.

Lemma count_iadd_app l e1 e2 :
  count_iadd l (e1 ++ e2) = (count_iadd l e1 + count_iadd l e2)%nat.
Proof. unfold count_iadd. rewrite List.filter_app, length_app. reflexivity. Qed.

Lemma spec_leapfrog_after_half n g x p0 :
  spec_leapfrog f a ql pl n (half_momentum_update a pl g (x, p0, [])) =
  prefix_events [IAdd pl (vdiv (vscale a g) 2)]
    (spec_leapfrog f a ql pl n (x, vadd p0 (vdiv (vscale a g) 2), [])).
Proof. rewrite <- spec_leapfrog_prefix. reflexivity. Qed.

Hypothesis ql_pl : ql <> pl.

Lemma spec_leapfrog_counts n q p ev :
  let ev' := snd (spec_leapfrog f a ql pl n (q, p, ev)) in
  count_iadd ql ev' = (count_iadd ql ev + S n)%nat /\
  count_iadd pl ev' = (count_iadd pl ev + n)%nat /\
  count_calls ev' = (count_calls ev + n)%nat.
Proof.
  assert (Hqp : Nat.eqb ql pl = false) by (apply Nat.eqb_neq; exact ql_pl).
  assert (Hpq : Nat.eqb pl ql = false) by (apply Nat.eqb_neq; congruence).
  revert q p ev. induction n as [|n IH]; intros q p ev; cbv zeta.
  - unfold spec_leapfrog. simpl.
    rewrite !count_iadd_app, count_calls_app. unfold count_iadd, count_calls. simpl.
    rewrite Nat.eqb_refl, Hqp. simpl. lia.
  - rewrite spec_leapfrog_S. cbn [position_update momentum_update]. cbv zeta.
    destruct (IH (vadd q (vscale a p))
                 (vadd p (vscale a (snd (f (vadd q (vscale a p))))))
                 ((ev ++ [IAdd ql (vscale a p)]) ++
                  [Call (vadd q (vscale a p));
                   IAdd pl (vscale a (snd (f (vadd q (vscale a p)))))]))
      as (I1 & I2 & I3).
    rewrite I1, I2, I3.
    rewrite !count_iadd_app, !count_calls_app. unfold count_iadd, count_calls. simpl.
    rewrite !Nat.eqb_refl, Hqp, Hpq. simpl. lia.
Qed.

End LeapfrogFacts.

(** ** The family: single attempts *)

Section FamilyFacts.
Context {RS : Random}.
Import MetropolisHastingsMCMC.

Lemma leapfrog_run (idx : list Z) (o : obj) (n : Z) (h : Heap) (q p cp : Vec)
      (g : Rng) (t : list event) :
  L o = Some n ->
  for_each idx (HamiltonyanMCMC.leapfrog_body (length h) (S (length h)))
           (mkSt o (h ++ [q; p; cp]) g t) =
  Ret (tt, mkSt o
         (h ++ [fst (fst (leapfrog_loop (oracle o) (lr o) (length h) (S (length h)) n idx q p));
                snd (fst (leapfrog_loop (oracle o) (lr o) (length h) (S (length h)) n idx q p));
                cp])
         g
         (t ++ snd (leapfrog_loop (oracle o) (lr o) (length h) (S (length h)) n idx q p))).
Proof.
  intros HL. revert q p t.
  induction idx as [|i idx IH]; intros q p t.
  - simpl. unfold ret. rewrite app_nil_r. reflexivity.
  - simpl for_each. unfold bind at 1.
    unfold HamiltonyanMCMC.leapfrog_body at 1.
    unfold bind, attr, attr_set, load, iadd, call_oracle, ret.
    simpl. rewrite HL. simpl.
    rewrite !heap_at_p, !heap_at_q, !heap_set_q.
    destruct (negb (i =? n - 1)%Z) eqn:E.
    + simpl. rewrite !heap_at_q, !heap_at_p, !heap_set_p.
      rewrite IH.
      destruct (leapfrog_loop _ _ _ _ n idx _ _) as [[qf pf] ev]. simpl.
      rewrite <- !app_assoc. reflexivity.
    + simpl. rewrite IH.
      destruct (leapfrog_loop _ _ _ _ n idx _ _) as [[qf pf] ev]. simpl.
      rewrite <- !app_assoc. reflexivity.
Qed.

(** [transition] of the Hamiltonian sampler on an initialised object, with
    the loop on values *)
Lemma transition_run (s : St obj) (c : loc) (cv : OracleResult) (n : Z) :
  current (self s) = Some c ->
  current_value (self s) = Some cv ->
  L (self s) = Some n ->
  let h := heap s in
  let x := h !!! c in
  let d := length ((h ++ [x]) !!! c) in
  let p0 := fst (normal d (rng s)) in
  let a := lr (self s) in
  let f := oracle (self s) in
  let ql := length h in
  let pl := S (length h) in
  let half0 := vdiv (vscale a (snd cv)) 2 in
  let lf := leapfrog_loop f a ql pl n (range n) x (vadd p0 half0) in
  let qL := fst (fst lf) in
  let pL := snd (fst lf) in
  let nv := f qL in
  let halfF := vdiv (vscale a (snd nv)) 2 in
  let pF := vadd pL halfF in
  HamiltonyanMCMC.transition s =
  Ret ((ql, nv, exp (- fst cv - - fst nv + vsum (vsq p0) / 2 - vsum (vsq pF) / 2)),
       mkSt (self s) (h ++ [qL; pF; p0]) (snd (normal d (rng s)))
            (trace s ++ [IAdd pl half0] ++ snd lf ++ [Call qL; IAdd pl halfF])).
Proof.
  intros Hc Hv HL. destruct s as [o h g t]. simpl in *.
  unfold HamiltonyanMCMC.transition.
  unfold bind at 1, attr_set at 1. simpl. rewrite Hc.
  unfold bind at 1, load at 1. simpl.
  unfold bind at 1, alloc at 1. simpl.
  unfold bind at 1, attr_set at 1. simpl. rewrite Hc.
  unfold bind at 1, load at 1. simpl.
  unfold bind at 1, draw_normal at 1. simpl.
  unfold bind at 1, alloc at 1. simpl.
  unfold bind at 1, load at 1. simpl.
  unfold bind at 1, alloc at 1. simpl.
  unfold bind at 1, attr at 1. simpl.
  unfold bind at 1, attr_set at 1. simpl. rewrite Hv.
  unfold bind at 1, iadd at 1. simpl.
  unfold bind at 1, attr_set at 1. simpl. rewrite HL.
  rewrite !length_app. simpl length.
  replace (length h + 1)%nat with (S (length h)) by lia.
  rewrite <- !app_assoc. simpl app.
  rewrite heap_at_p, heap_set_p.
  unfold bind at 1. rewrite (leapfrog_run _ _ n) by exact HL.
  destruct (leapfrog_loop _ _ _ _ n (range n) _ _) as [[qf pf] ev] eqn:E. simpl.
  unfold bind, attr, attr_set, call_oracle, iadd, load, ret. simpl. rewrite Hv.
  rewrite !heap_at_q, !heap_at_p, !heap_set_p.
  cbn [heap]. rewrite ?Nat.add_1_r. rewrite heap_at_cp, heap_at_p.
  rewrite <- !app_assoc. reflexivity.
Qed.

Lemma transition_inv (s : St obj) r s' :
  HamiltonyanMCMC.transition s = Ret (r, s') ->
  exists c cv n, current (self s) = Some c /\ current_value (self s) = Some cv /\
                 L (self s) = Some n.
Proof.
  intros H. destruct s as [o h g t]. destruct o as [f a d n c cv Lz].
  destruct c as [c|], cv as [cv|], Lz as [Lz|];
    try (exfalso; unfold HamiltonyanMCMC.transition in H; mrun; discriminate H).
  exists c, cv, Lz. repeat split.
Qed.

Lemma attempt_MH (s : St obj) b s' :
  attempt_of MetropolisHastings s = Ret (b, s') -> attempt_post MetropolisHastings s b s'.
Proof.
  intros H. destruct s as [o h g t]. destruct o as [f a d n c cv Lz].
  unfold attempt_of, update_body, transition, compute_alpha, draw_mvn in H.
  minv H;
    inversion H; subst; clear H;
    unfold attempt_post, evaluation_of, transition, compute_alpha, draw_mvn;
    mrun;
    repeat match goal with E : _ = _ |- _ => rewrite E end;
    attempt_done.
Qed.

Lemma attempt_Langevin (s : St obj) b s' :
  attempt_of Langevin s = Ret (b, s') -> attempt_post Langevin s b s'.
Proof.
  intros H. destruct s as [o h g t]. destruct o as [f a d n c cv Lz].
  unfold attempt_of, update_body, LangevinMCMC.transition, LangevinMCMC.compute_alpha,
    LangevinMCMC.proposal_a_given_b, draw_mvn in H.
  minv H;
    inversion H; subst; clear H;
    unfold attempt_post, evaluation_of, LangevinMCMC.transition,
      LangevinMCMC.compute_alpha, LangevinMCMC.proposal_a_given_b, draw_mvn;
    mrun;
    repeat match goal with E : _ = _ |- _ => rewrite E end;
    attempt_done.
Qed.

Lemma attempt_HMC (s : St obj) b s' :
  attempt_of Hamiltonyan s = Ret (b, s') -> attempt_post Hamiltonyan s b s'.
Proof.
  intros H. unfold attempt_of, HamiltonyanMCMC.update_body in H.
  apply bind_inv in H. destruct H as (r & s1 & Ht & H).
  destruct (transition_inv _ _ _ Ht) as (c & cv & n & Hc & Hv & HL).
  pose proof (transition_run s c cv n Hc Hv HL) as Hrun. cbv zeta in Hrun.
  rewrite Hrun in Ht. inversion Ht; subst r s1; clear Ht.
  unfold attempt_post, evaluation_of. rewrite Hrun.
  destruct s as [o h g t]. destruct o as [f a d m c0 cv0 Lz].
  minv H; inversion H; subst; clear H; mrun; attempt_done.
Qed.

Lemma attempt_of_post k s b s' :
  attempt_of k s = Ret (b, s') -> attempt_post k s b s'.
Proof.
  destruct k; [apply attempt_MH | apply attempt_Langevin | apply attempt_HMC].
Qed.





(** [compute_alpha], whatever the exponential *)
Lemma compute_alpha_with_exp : compute_alpha_with exp = compute_alpha.
Proof. reflexivity. Qed.

Lemma compute_alpha_with_run (np_exp : R -> R) (s : St obj) (cv nv : OracleResult)
      (new : loc) :
  current_value (self s) = Some cv ->
  compute_alpha_with np_exp new nv s = Ret (py_min 1 (np_exp (fst nv - fst cv)), s).
Proof.
  intros Hv. destruct s as [o h g t]. destruct o as [f a d n c0 cv0 Lz].
  cbn [self current_value] in Hv. subst cv0.
  unfold compute_alpha_with. mrun. reflexivity.
Qed.

(** the methods other than [initialize] and [update] leave [self] alone *)
Lemma methods_keep_self (s s' : St obj) :
  (forall r, MetropolisHastingsMCMC.transition s = Ret (r, s') -> self s' = self s) /\
  (forall new nv r,
     MetropolisHastingsMCMC.compute_alpha new nv s = Ret (r, s') -> self s' = self s) /\
  (forall r, LangevinMCMC.transition s = Ret (r, s') -> self s' = self s) /\
  (forall a b av bv r,
     LangevinMCMC.proposal_a_given_b a b av bv s = Ret (r, s') -> self s' = self s) /\
  (forall new nv r,
     LangevinMCMC.compute_alpha new nv s = Ret (r, s') -> self s' = self s) /\
  (forall r, HamiltonyanMCMC.transition s = Ret (r, s') -> self s' = self s).
Proof.
  repeat apply conj.
  - intros r H. destruct s as [o h g t]. destruct o as [f a d n c cv Lz].
    unfold transition, draw_mvn in H. minv H; inversion H; reflexivity.
  - intros new nv r H. destruct s as [o h g t]. destruct o as [f a d n c cv Lz].
    unfold compute_alpha in H. minv H; inversion H; reflexivity.
  - intros r H. destruct s as [o h g t]. destruct o as [f a d n c cv Lz].
    unfold LangevinMCMC.transition, draw_mvn in H. minv H; inversion H; reflexivity.
  - intros a b av bv r H. destruct s as [o h g t]. destruct o as [f a0 d n c cv Lz].
    unfold LangevinMCMC.proposal_a_given_b in H. minv H; inversion H; reflexivity.
  - intros new nv r H. destruct s as [o h g t]. destruct o as [f a d n c cv Lz].
    unfold LangevinMCMC.compute_alpha, LangevinMCMC.proposal_a_given_b in H.
    minv H; inversion H; reflexivity.
  - intros r H.
    destruct (transition_inv _ _ _ H) as (c & cv & n & Hc & Hv & HL).
    pose proof (transition_run s c cv n Hc Hv HL) as Hrun. cbv zeta in Hrun.
    rewrite Hrun in H. inversion H. reflexivity.
Qed.

(** a Hamiltonian attempt on an initialised object returns, whatever the
    stepsize (the oracle of the model being a total function) *)
Lemma attempt_HMC_returns (s : St obj) (c : loc) (cv : OracleResult) (n : Z) :
  current (self s) = Some c -> current_value (self s) = Some cv -> L (self s) = Some n ->
  exists b s', attempt_of Hamiltonyan s = Ret (b, s').
Proof.
  intros Hc Hv HL.
  pose proof (transition_run s c cv n Hc Hv HL) as Hrun. cbv zeta in Hrun.
  unfold attempt_of, HamiltonyanMCMC.update_body. unfold bind at 1. rewrite Hrun.
  mrun.
  match goal with |- context [Rgtb ?x ?y] => destruct (Rgtb x y) end;
    eexists; eexists; reflexivity.
Qed.

(** it is accepted whenever the uniform draw that follows the momentum
    draw is not positive: the ratio is an exponential *)
Lemma attempt_HMC_accepts (s : St obj) (c : loc) (cv : OracleResult) (n : Z) :
  current (self s) = Some c -> current_value (self s) = Some cv -> L (self s) = Some n ->
  fst (uniform 0 1 (snd (normal (length ((heap s ++ [heap s !!! c]) !!! c)) (rng s)))) <= 0 ->
  exists s', attempt_of Hamiltonyan s = Ret (true, s').
Proof.
  intros Hc Hv HL Hth.
  destruct (attempt_HMC_returns s c cv n Hc Hv HL) as (b & s' & H).
  destruct (attempt_of_post _ _ _ _ H)
    as (_ & _ & _ & _ & _ & _ & cand & nv & alpha & s1 & He & _ & Hb & _).
  unfold evaluation_of in He.
  pose proof (transition_run s c cv n Hc Hv HL) as Hrun.
  cbv zeta in Hrun.
  rewrite Hrun in He. clear Hrun.
  injection He as _ _ Ha Hs. subst alpha s1.
  cbn [rng] in Hb.
  rewrite Rgtb_true in Hb by (eapply Rle_lt_trans; [exact Hth | apply exp_pos]).
  subst b. exists s'. exact H.
Qed.

(** ** The family: the retry loop *)

Lemma while_inv {O} (body : M O bool) fuel s u s' :
  while_not_accepted fuel body s = Ret (u, s') ->
  exists n s1, (n < fuel)%nat /\ rejections body n s s1 /\ body s1 = Ret (true, s').
Proof.
  revert s. induction fuel as [|fuel IH]; intros s H; simpl in H; [discriminate|].
  apply bind_inv in H. destruct H as (b & s1 & Hb & H).
  destruct b.
  - unfold ret in H. inversion H; subst. exists 0%nat, s. repeat split.
    + lia.
    + constructor.
    + exact Hb.
  - destruct (IH _ H) as (n & s2 & Hn & Hr & Ha).
    exists (S n), s2. repeat split; [lia | econstructor; eauto | exact Ha].
Qed.

Lemma while_run {O} (body : M O bool) n s s1 s' fuel :
  rejections body n s s1 -> body s1 = Ret (true, s') -> (n < fuel)%nat ->
  while_not_accepted fuel body s = Ret (tt, s').
Proof.
  intros Hr. revert fuel. induction Hr as [s|n s s1 s2 Hb Hr IH]; intros fuel Ha Hn.
  - destruct fuel; [lia|]. simpl. unfold bind. rewrite Ha. reflexivity.
  - destruct fuel; [lia|]. simpl. unfold bind. rewrite Hb. apply IH; [exact Ha | lia].
Qed.


Lemma rejections_post k n s s1 :
  rejections (attempt_of k) n s s1 ->
  oracle (self s1) = oracle (self s) /\
  lr (self s1) = lr (self s) * lr_decay (self s) ^ n /\
  lr_decay (self s1) = lr_decay (self s) /\
  number_of_steps (self s1) = (number_of_steps (self s) + Z.of_nat n)%Z /\
  L (self s1) = L (self s) /\
  current (self s1) = current (self s) /\
  current_value (self s1) = current_value (self s).
Proof.
  induction 1 as [s|n s s1 s2 Hb Hr IH].
  - simpl. repeat split; try lra. lia.
  - apply attempt_of_post in Hb.
    destruct Hb as (Ho & Hlr & Hd & Hn & HL & Hrej & _).
    destruct (Hrej eq_refl) as [Hc Hv].
    destruct IH as (Io & Ilr & Id & In & IL & Ic & Iv).
    repeat split; try congruence.
    + rewrite Ilr, Hlr, Hd. simpl. lra.
    + rewrite In, Hn. lia.
Qed.

Lemma update_of_unfold k fuel :
  update_of k fuel =
  (old_lr <- attr lr ;;
   while_not_accepted fuel (attempt_of k) ;;
   assign (set_lr old_lr) ;;
   cv <- attr_set current_value ;;
   ret (fst cv)).
Proof. destruct k; reflexivity. Qed.

(** a call that returns went through some rejected attempts and an
    accepted one *)
Lemma update_of_inv k fuel s v s' :
  update_of k fuel s = Ret (v, s') ->
  exists n s1 s2 cv,
    (n < fuel)%nat /\ rejections (attempt_of k) n s s1 /\
    attempt_of k s1 = Ret (true, s2) /\
    current_value (self s2) = Some cv /\ v = fst cv /\
    s' = mkSt (set_lr (lr (self s)) (self s2)) (heap s2) (rng s2) (trace s2).
Proof.
  rewrite update_of_unfold. intros H.
  apply bind_inv in H. destruct H as (old & s0 & H0 & H).
  unfold attr in H0. inversion H0; subst old s0; clear H0.
  apply bind_inv in H. destruct H as (u & s2 & Hw & H).
  destruct (while_inv _ _ _ _ _ Hw) as (n & s1 & Hn & Hr & Ha).
  exists n, s1, s2.
  unfold bind, assign, attr_set, ret in H. cbn [self heap rng trace] in H.
  destruct (current_value (set_lr (lr (self s)) (self s2))) as [cv|] eqn:E; [|discriminate].
  exists cv. inversion H; subst. repeat split; auto.
Qed.

(** rejected attempts followed by an accepted one make the call return,
    given fuel for them *)
Lemma update_of_run k n s s1 s2 fuel :
  rejections (attempt_of k) n s s1 -> attempt_of k s1 = Ret (true, s2) -> (n < fuel)%nat ->
  exists cv, current_value (self s2) = Some cv /\
  update_of k fuel s =
    Ret (fst cv, mkSt (set_lr (lr (self s)) (self s2)) (heap s2) (rng s2) (trace s2)).
Proof.
  intros Hr Ha Hn.
  destruct (attempt_of_post _ _ _ _ Ha)
    as (_ & _ & _ & _ & _ & _ & cand & nv & alpha & s3 & _ & _ & _ & Hacc).
  destruct (Hacc eq_refl) as (_ & Hnv).
  exists nv. split; [exact Hnv|].
  rewrite update_of_unfold. unfold bind at 1. unfold attr at 1.
  unfold bind at 1. rewrite (while_run _ _ _ _ _ _ Hr Ha Hn).
  unfold bind, assign, attr_set, ret. cbn [self heap rng trace].
  unfold set_lr at 1. cbn [current_value]. rewrite Hnv. reflexivity.
Qed.

End FamilyFacts.

(** * The claims *)

Section Claims.
Context {RS : Random}.

(** C8.  [GradientAccent.update()] on an initialised object whose
    [current] is the array at [l]: it calls the oracle once, at the current
    point; it returns the log-value the oracle reported there, before the
    move; the array holds [current + lr * gradient] afterwards, in place;
    the step counter has grown by exactly one and the other attributes are
    as they were.  When the gradient at the current point is the zero
    vector, the heap, and so [current], is unchanged. *)
Theorem C8_gradient_ascent_update (s : St GradientAccent.obj) (l : loc) :
  GradientAccent.current (self s) = Some l ->
  (l < length (heap s))%nat ->
  let x := heap s !!! l in
  let value := fst (GradientAccent.oracle (self s) x) in
  let grad := snd (GradientAccent.oracle (self s) x) in
  exists s',
    GradientAccent.update s = Ret (value, s') /\
    trace s' = trace s ++ [Call x; IAdd l (vscale (GradientAccent.lr (self s)) grad)] /\
    GradientAccent.current (self s') = Some l /\
    heap s' !!! l = vadd x (vscale (GradientAccent.lr (self s)) grad) /\
    (forall l', l' <> l -> heap s' !!! l' = heap s !!! l') /\
    GradientAccent.number_of_steps (self s') =
      (GradientAccent.number_of_steps (self s) + 1)%Z /\
    GradientAccent.lr (self s') = GradientAccent.lr (self s) /\
    GradientAccent.oracle (self s') = GradientAccent.oracle (self s) /\
    rng s' = rng s /\
    (grad = zeros_like x -> heap s' = heap s).
Proof.
  intros Hc Hl x value grad.
  eexists. split; [apply GradientAccent_update_run; exact Hc|].
  cbn [self heap rng trace GradientAccent.current GradientAccent.number_of_steps
       GradientAccent.lr GradientAccent.oracle].
  repeat split.
  - apply list_lookup_total_insert_eq. exact Hl.
  - intros l' Hne. apply list_lookup_total_insert_ne. congruence.
  - intros Hz. fold x grad. rewrite Hz, vadd_zeros.
    apply list_insert_id. apply list_lookup_lookup_total_lt. exact Hl.
Qed.

Import MetropolisHastingsMCMC.

(** C10.  Every call of [HamiltonyanMCMC.transition()] that returns leaves
    [self] as it was: [oracle], [lr], [lr_decay], [number_of_steps],
    [current], [current_value] and [L] hold the values they held before.
    The call creates three arrays ([q], [p] and [current_p]) and writes to
    these only: every array that existed before the call, the one
    [self.current] refers to among them, has its contents unchanged, and
    the candidate returned is the new array [q]. *)
Theorem C10_transition_frame (s : St obj) (r : loc * OracleResult * R) (s' : St obj) :
  HamiltonyanMCMC.transition s = Ret (r, s') ->
  self s' = self s /\
  (exists q p current_p, heap s' = heap s ++ [q; p; current_p]) /\
  (forall l, (l < length (heap s))%nat -> heap s' !!! l = heap s !!! l) /\
  fst (fst r) = length (heap s).
Proof.
  intros H.
  destruct (transition_inv _ _ _ H) as (c & cv & n & Hc & Hv & HL).
  pose proof (transition_run s c cv n Hc Hv HL) as Hrun. cbv zeta in Hrun.
  rewrite Hrun in H. inversion H; subst r s'; clear H.
  cbn [self heap fst snd].
  repeat split.
  - eexists; eexists; eexists; reflexivity.
  - intros l Hl. apply lookup_total_app_l. exact Hl.
Qed.

(** C1.  [HamiltonyanMCMC.transition()] on an initialised object with
    [L >= 1], where [q] starts as a copy of the current position and
    [current_p] is the momentum drawn.  The trajectory is the one the
    specification words: one half-step momentum update with the current
    gradient, one position update followed by [L - 1] times a full-step
    momentum update (gradient at the new [q]) and a position update, one
    oracle evaluation at the final [q], one half-step momentum update with
    the gradient found there.  The trace of the call is the trace of that
    trajectory: exactly [L] additions to [q], [L - 1] full-step and two
    half-step additions to [p], and [L] oracle calls ([L - 1] inside the
    loop and the final one).  The ratio returned is
    [exp(current_u - proposed_u + current_k - proposed_k)], with
    [current_k] taken over the momentum as drawn; it is not capped: it
    exceeds 1 whenever the proposed energy is below the current one. *)
Theorem C1_leapfrog_transition (s : St obj) (c : loc) (cv : OracleResult) (n : Z) :
  current (self s) = Some c ->
  (c < length (heap s))%nat ->
  current_value (self s) = Some cv ->
  L (self s) = Some n ->
  (1 <= n)%Z ->
  let stepsize := lr (self s) in
  let f := oracle (self s) in
  let ql := length (heap s) in
  let pl := S (length (heap s)) in
  let x := heap s !!! c in
  let current_p := fst (normal (length x) (rng s)) in
  let st0 := half_momentum_update stepsize pl (snd cv) (x, current_p, []) in
  let st1 := spec_leapfrog f stepsize ql pl (Z.to_nat n - 1) st0 in
  let q := fst (fst st1) in
  let new_value := f q in
  let st2 := half_momentum_update stepsize pl (snd new_value) (final_evaluation st1) in
  let p := snd (fst st2) in
  let ev := snd st2 in
  let current_u := - fst cv in
  let proposed_u := - fst new_value in
  let current_k := vsum (vsq current_p) / 2 in
  let proposed_k := vsum (vsq p) / 2 in
  let alpha := exp (current_u - proposed_u + current_k - proposed_k) in
  HamiltonyanMCMC.transition s =
    Ret ((ql, new_value, alpha),
         mkSt (self s) (heap s ++ [q; p; current_p])
              (snd (normal (length x) (rng s))) (trace s ++ ev)) /\
  count_iadd ql ev = Z.to_nat n /\
  count_iadd pl ev = (1 + (Z.to_nat n - 1) + 1)%nat /\
  count_calls ev = (Z.to_nat n - 1 + 1)%nat /\
  (proposed_u + proposed_k < current_u + current_k -> 1 < alpha).
Proof.
  intros Hc Hl Hv HL Hn stepsize f ql pl x current_p st0 st1.
  pose proof (transition_run s c cv n Hc Hv HL) as Hrun. cbv zeta in Hrun.
  rewrite lookup_total_app_l in Hrun by exact Hl.
  rewrite leapfrog_loop_range in Hrun by exact Hn.
  assert (Hne : ql <> pl) by (unfold ql, pl; lia).
  pose proof (spec_leapfrog_counts f stepsize ql pl Hne (Z.to_nat n - 1) x
                (vadd current_p (vdiv (vscale stepsize (snd cv)) 2)) []) as Hcount.
  cbv zeta in Hcount.
  assert (Hqp : Nat.eqb pl ql = false) by (apply Nat.eqb_neq; congruence).
  assert (Hst1 : st1 =
            prefix_events [IAdd pl (vdiv (vscale stepsize (snd cv)) 2)]
              (spec_leapfrog f stepsize ql pl (Z.to_nat n - 1)
                 (x, vadd current_p (vdiv (vscale stepsize (snd cv)) 2), [])))
    by apply spec_leapfrog_after_half.
  clearbody st1. clear st0.
  subst stepsize f ql pl x current_p.
  destruct (spec_leapfrog _ _ _ _ (Z.to_nat n - 1) _) as [[qf pf] e] eqn:E.
  subst st1. cbn [prefix_events final_evaluation half_momentum_update fst snd] in *.
  destruct Hcount as (C1 & C2 & C3).
  split; [|split; [|split; [|split]]].
  - rewrite Hrun. rewrite <- !app_assoc. reflexivity.
  - rewrite !count_iadd_app, C1. unfold count_iadd.
    cbn [List.filter is_iadd]. rewrite Hqp. cbn [length]. lia.
  - rewrite !count_iadd_app, C2. unfold count_iadd.
    cbn [List.filter is_iadd]. rewrite Nat.eqb_refl. cbn [length]. lia.
  - rewrite !count_calls_app, C3. unfold count_calls.
    cbn [List.filter is_call length]. lia.
  - intros Hlt. rewrite <- exp_0. apply exp_increasing. lra.
Qed.

(** C2, as the code has it.  [MetropolisHastingsMCMC.compute_alpha] on an
    initialised object returns [min(1, np.exp(candidate log-value - current
    log-value))] and changes nothing.  For every exponential that is never
    negative and is at least 1 on arguments that are not negative, as the
    real one and float64's are, the ratio lies in the closed interval
    [0, 1]; it is exactly 1 whenever the candidate's log-value is at least
    the current one; and it is 0 where the exponential is 0. *)
Theorem C2_mh_acceptance_ratio_bounds (np_exp : R -> R) (s : St obj)
        (cv new_value : OracleResult) (new : loc) :
  (forall x, 0 <= np_exp x) ->
  (forall x, 0 <= x -> 1 <= np_exp x) ->
  current_value (self s) = Some cv ->
  let ratio := Rmin 1 (np_exp (fst new_value - fst cv)) in
  compute_alpha_with np_exp new new_value s = Ret (ratio, s) /\
  0 <= ratio <= 1 /\
  (fst cv <= fst new_value -> ratio = 1) /\
  (np_exp (fst new_value - fst cv) = 0 -> ratio = 0).
Proof.
  intros Hpos Hge Hv ratio. repeat apply conj.
  - unfold ratio. rewrite <- py_min_Rmin. apply compute_alpha_with_run. exact Hv.
  - unfold ratio. apply Rmin_glb; [lra | apply Hpos].
  - apply Rmin_l.
  - intros Hle. unfold ratio. apply Rmin_left. apply Hge. lra.
  - intros Hz. unfold ratio. rewrite Hz. apply Rmin_right. lra.
Qed.

(** C3.  [LangevinMCMC.compute_alpha] on an initialised object returns
    [min(1, exp(candidate log-value - current log-value) *
            exp(tld(current, candidate, current_value, candidate_value) -
                tld(candidate, current, candidate_value, current_value)))],
    where [tld] is the transition log density at the object's stepsize,
    and changes nothing. *)
Theorem C3_langevin_acceptance_ratio (s : St obj) (c : loc) (cv new_value : OracleResult)
        (new : loc) :
  current (self s) = Some c ->
  current_value (self s) = Some cv ->
  let stepsize := lr (self s) in
  let cur := heap s !!! c in
  let candidate := heap s !!! new in
  LangevinMCMC.compute_alpha new new_value s =
    Ret (Rmin 1 (exp (fst new_value - fst cv) *
                 exp (transition_log_density stepsize cur candidate cv new_value -
                      transition_log_density stepsize candidate cur new_value cv)),
         s).
Proof.
  intros Hc Hv. cbv zeta.
  destruct s as [o h g t]. destruct o as [f a d n c0 cv0 Lz].
  cbn [self current current_value] in Hc, Hv. subst c0 cv0.
  rewrite <- py_min_Rmin.
  unfold LangevinMCMC.compute_alpha, LangevinMCMC.proposal_a_given_b,
    transition_log_density.
  mrun. reflexivity.
Qed.

(** C4.  On an initialised Langevin sampler: the candidate [transition()]
    proposes is a new array holding
    [current + stepsize * current_gradient + sqrt(2 * stepsize) * noise],
    [noise] being the draw of mean zero and covariance 1 of the shape of
    [current]; [proposal_a_given_b(a, b, a_value, b_value)] is
    [-sum((a - b - stepsize * b_gradient)^2) / (4 * stepsize)]; and at a
    point whose gradient is zero the density of proposing the point from
    itself is 0 (the stepsize being non-zero, as a division by it is
    involved). *)
Theorem C4_langevin_proposal (s : St obj) (c : loc) (cv : OracleResult) :
  current (self s) = Some c ->
  current_value (self s) = Some cv ->
  let stepsize := lr (self s) in
  let x := heap s !!! c in
  (forall noise g, mvn_rvs (zeros_like x) 1 (rng s) = Some (noise, g) ->
     LangevinMCMC.transition s =
       Ret (length (heap s),
            mkSt (self s)
                 (heap s ++ [vadd (vadd x (vscale stepsize (snd cv)))
                                  (vscale (sqrt (2 * stepsize)) noise)])
                 g (trace s))) /\
  (forall a b a_value b_value,
     LangevinMCMC.proposal_a_given_b a b a_value b_value s =
       Ret ((- vsum (vsq (vsub (vsub (heap s !!! a) (heap s !!! b))
                               (vscale stepsize (snd b_value))))) / (4 * stepsize),
            s)) /\
  (forall a a_value,
     stepsize <> 0 ->
     snd a_value = zeros_like (heap s !!! a) ->
     LangevinMCMC.proposal_a_given_b a a a_value a_value s = Ret (0, s)).
Proof.
  intros Hc Hv stepsize x. split; [|split].
  - intros noise g Hd. subst stepsize x.
    destruct s as [o h g0 t]. destruct o as [f a d n c0 cv0 Lz].
    cbn [self heap rng current current_value lr] in *. subst c0 cv0.
    unfold LangevinMCMC.transition, draw_mvn. mrun. rewrite Hd. reflexivity.
  - intros a b av bv. reflexivity.
  - intros a av Hs Hz.
    unfold LangevinMCMC.proposal_a_given_b, bind, attr, load, ret.
    rewrite Hz, vsum_self_zero. do 2 f_equal. fold stepsize. field.
    exact Hs.
Qed.

(** C5.  Every call of [update()] that returns, on a sampler of any of the
    three classes, leaves [lr] (and [lr_decay]) at the value held on
    entry, for any number of rejected attempts and any decay.  Whenever
    [n] rejected attempts are followed by an accepted one, the call
    returns, given fuel for them, with [lr] restored, although the loop
    ended with the working stepsize at [lr * lr_decay^(n+1)]. *)
Theorem C5_stepsize_restored (k : sampler) (fuel : nat) (s : St obj) :
  (forall v s', update_of k fuel s = Ret (v, s') ->
     lr (self s') = lr (self s) /\ lr_decay (self s') = lr_decay (self s)) /\
  (forall n s1 s2,
     rejections (attempt_of k) n s s1 -> attempt_of k s1 = Ret (true, s2) ->
     (n < fuel)%nat ->
     lr (self s2) = lr (self s) * lr_decay (self s) ^ S n /\
     exists v s', update_of k fuel s = Ret (v, s') /\ lr (self s') = lr (self s)).
Proof.
  split.
  - intros v s' H.
    destruct (update_of_inv _ _ _ _ _ H) as (n & s1 & s2 & cv & _ & Hr & Ha & _ & _ & ->).
    cbn [self lr lr_decay set_lr]. split; [reflexivity|].
    destruct (rejections_post _ _ _ _ Hr) as (_ & _ & Hd & _).
    destruct (attempt_of_post _ _ _ _ Ha) as (_ & _ & Hd' & _).
    congruence.
  - intros n s1 s2 Hr Ha Hn. split.
    + destruct (rejections_post _ _ _ _ Hr) as (_ & Hlr & Hd & _).
      destruct (attempt_of_post _ _ _ _ Ha) as (_ & Hlr' & _).
      rewrite Hlr', Hlr, Hd. simpl. lra.
    + destruct (update_of_run _ _ _ _ _ _ Hr Ha Hn) as (cv & _ & Hrun).
      eexists; eexists; split; [exact Hrun | reflexivity].
Qed.


(** C7.  The step counter: it is 0 on every new sampler; [initialize]
    leaves it alone; [GradientAccent.update()] adds exactly 1; one attempt
    of the retry loop adds exactly 1, accepted or not; a call of the
    family's [update()] that returns after [n] rejected attempts and the
    accepted one has added exactly [n + 1], hence at least 1; the other
    methods ([transition], [compute_alpha], [proposal_a_given_b]) leave it
    alone.  It therefore never decreases and, starting from 0, is never
    negative. *)
Theorem C7_step_counter :
  (forall f a o, GradientAccent.new f a = Ret o ->
     GradientAccent.number_of_steps o = 0%Z) /\
  (forall f a d o, MetropolisHastingsMCMC.new f a d = Ret o -> number_of_steps o = 0%Z) /\
  (forall f a d o, LangevinMCMC.new f a d = Ret o -> number_of_steps o = 0%Z) /\
  (forall f a d n o, HamiltonyanMCMC.new f a d n = Ret o -> number_of_steps o = 0%Z) /\
  (forall l (s : St GradientAccent.obj) u s',
     GradientAccent.initialize l s = Ret (u, s') ->
     GradientAccent.number_of_steps (self s') = GradientAccent.number_of_steps (self s)) /\
  (forall l (s : St obj) u s',
     initialize l s = Ret (u, s') -> number_of_steps (self s') = number_of_steps (self s)) /\
  (forall (s : St GradientAccent.obj) v s',
     GradientAccent.update s = Ret (v, s') ->
     GradientAccent.number_of_steps (self s') =
       (GradientAccent.number_of_steps (self s) + 1)%Z) /\
  (forall k (s : St obj) b s',
     attempt_of k s = Ret (b, s') ->
     number_of_steps (self s') = (number_of_steps (self s) + 1)%Z) /\
  (forall k fuel (s : St obj) v s',
     update_of k fuel s = Ret (v, s') ->
     (exists n s1 s2,
        rejections (attempt_of k) n s s1 /\ attempt_of k s1 = Ret (true, s2) /\
        number_of_steps (self s') = (number_of_steps (self s) + Z.of_nat (n + 1))%Z) /\
     (number_of_steps (self s) + 1 <= number_of_steps (self s'))%Z /\
     ((0 <= number_of_steps (self s))%Z -> (0 <= number_of_steps (self s'))%Z)) /\
  (forall (s s' : St obj),
     (exists r, MetropolisHastingsMCMC.transition s = Ret (r, s')) \/
     (exists new nv r, MetropolisHastingsMCMC.compute_alpha new nv s = Ret (r, s')) \/
     (exists r, LangevinMCMC.transition s = Ret (r, s')) \/
     (exists a b av bv r, LangevinMCMC.proposal_a_given_b a b av bv s = Ret (r, s')) \/
     (exists new nv r, LangevinMCMC.compute_alpha new nv s = Ret (r, s')) \/
     (exists r, HamiltonyanMCMC.transition s = Ret (r, s')) ->
     number_of_steps (self s') = number_of_steps (self s)).
Proof.
  repeat apply conj.
  - intros f a o H. inversion H. reflexivity.
  - intros f a d o H. inversion H. reflexivity.
  - intros f a d o H. inversion H. reflexivity.
  - intros f a d n o H. inversion H. reflexivity.
  - intros l s u s' H. inversion H. reflexivity.
  - intros l s u s' H. destruct s as [o h g t]. destruct o as [f a d n c cv Lz].
    unfold initialize in H. mrun. inversion H. reflexivity.
  - intros s v s' H.
    destruct (GradientAccent_update_inv _ _ _ H) as [l Hl].
    rewrite (GradientAccent_update_run _ _ Hl) in H. inversion H. reflexivity.
  - intros k s b s' H. apply (attempt_of_post _ _ _ _ H).
  - intros k fuel s v s' H.
    destruct (update_of_inv _ _ _ _ _ H) as (n & s1 & s2 & cv & _ & Hr & Ha & _ & _ & ->).
    destruct (rejections_post _ _ _ _ Hr) as (_ & _ & _ & Hn & _).
    destruct (attempt_of_post _ _ _ _ Ha) as (_ & _ & _ & Hn' & _).
    cbn [self number_of_steps set_lr].
    split; [|split].
    + exists n, s1, s2. repeat split; try assumption. rewrite Hn', Hn. lia.
    + rewrite Hn', Hn. lia.
    + rewrite Hn', Hn. lia.
  - intros s s' H.
    destruct (methods_keep_self s s') as (M1 & M2 & M3 & M4 & M5 & M6).
    assert (E : self s' = self s); [|rewrite E; reflexivity].
    destruct H as [[r H]|[(new & nv & r & H)|[[r H]|[(a & b & av & bv & r & H)|
                  [(new & nv & r & H)|[r H]]]]]]; eauto.
Qed.


End Claims.

(** * Concrete runs *)

Section ConcreteRuns.
Import MetropolisHastingsMCMC.

Ltac demo_run :=
  cbv beta iota zeta delta
      [bind ret attr attr_set assign load alloc iadd call_oracle draw_normal
       draw_uniform draw_mvn self heap rng trace fst snd
       oracle lr lr_decay number_of_steps current current_value L
       set_lr set_number_of_steps set_current set_current_value set_L
       demo_state demo_state1 demo_obj demo_oracle demo_random mvn_rvs normal uniform
       app length map lookup_total list_lookup_total vsum fold_right
       Nat.ltb Nat.leb Z.add Pos.add Pos.succ].

Lemma exp_m1_half : exp (-1) < 1 / 2.
Proof.
  assert (H : 2 < exp 1) by (pose proof (exp_ineq1 1); lra).
  assert (P : exp (-1) * exp 1 = 1).
  { rewrite <- exp_plus. replace (-1 + 1) with 0 by lra. apply exp_0. }
  pose proof (exp_pos (-1)). nra.
Qed.

Lemma demo_ratio_low : py_min 1 (exp (- (0 + 1 + 0) - - (0 + 0))) <= (0 + 1) / 2.
Proof.
  rewrite py_min_Rmin. eapply Rle_trans; [apply Rmin_r|].
  replace (- (0 + 1 + 0) - - (0 + 0)) with (-1) by lra.
  pose proof exp_m1_half. lra.
Qed.

Lemma demo_ratio_pos (x : R) : 0 < py_min 1 (exp x).
Proof.
  rewrite py_min_Rmin. apply Rmin_glb_lt; [lra | apply exp_pos].
Qed.

(** the first attempt proposes [1], where the log-value is lower by 1, and
    draws 1/2: rejected *)
Lemma demo_attempt1 :
  attempt_of MetropolisHastings (demo_state MetropolisHastings) = Ret (false, demo_state1).
Proof.
  unfold attempt_of, update_body, transition, compute_alpha.
  demo_run. rewrite (Rgtb_false _ _ demo_ratio_low). reflexivity.
Qed.

(** the second attempt proposes [1/2] and draws 0: accepted *)
Lemma demo_attempt2 :
  attempt_of MetropolisHastings demo_state1 = Ret (true, demo_state2).
Proof.
  unfold attempt_of, update_body, transition, compute_alpha.
  demo_run. rewrite (Rgtb_true _ _ (demo_ratio_pos _)). reflexivity.
Qed.

Lemma demo_rejections :
  rejections (attempt_of MetropolisHastings) 1 (demo_state MetropolisHastings) demo_state1.
Proof.
  eapply rejections_S; [exact demo_attempt1 | apply rejections_O].
Qed.


End ConcreteRuns.

(** * The claims on the concrete states *)

Section Witnesses.
Import MetropolisHastingsMCMC.

Lemma C1_leapfrog_transition_witness :
  exists r s', HamiltonyanMCMC.transition (demo_state Hamiltonyan) = Ret (r, s').
Proof.
  pose proof (@C1_leapfrog_transition demo_random (demo_state Hamiltonyan) 0%nat
                (demo_oracle [0]) 2%Z eq_refl (Nat.lt_0_succ 0) eq_refl eq_refl
                (Z.le_succ_diag_r 1)) as H.
  cbv zeta in H. destruct H as [H _].
  eexists. eexists. exact H.
Defined.

Lemma C2_mh_acceptance_ratio_bounds_witness :
  0 <= Rmin 1 (float_exp (fst (-1000, [0]) - fst (flat_oracle [0]))) <= 1.
Proof.
  exact (proj1 (proj2 (@C2_mh_acceptance_ratio_bounds demo_random float_exp
                         (flat_state MetropolisHastings) (flat_oracle [0]) (-1000, [0])
                         1%nat float_exp_nonneg float_exp_ge_1 eq_refl))).
Defined.

Lemma C3_langevin_acceptance_ratio_witness :
  exists alpha,
    LangevinMCMC.compute_alpha 0%nat (demo_oracle [0]) (demo_state Langevin) =
    Ret (alpha, demo_state Langevin).
Proof.
  eexists.
  exact (@C3_langevin_acceptance_ratio demo_random (demo_state Langevin) 0%nat
           (demo_oracle [0]) (demo_oracle [0]) 0%nat eq_refl eq_refl).
Defined.

Lemma C4_langevin_proposal_witness :
  (exists l s', LangevinMCMC.transition (demo_state Langevin) = Ret (l, s')) /\
  LangevinMCMC.proposal_a_given_b 0%nat 0%nat (0, [0]) (0, [0]) (demo_state Langevin) =
    Ret (0, demo_state Langevin).
Proof.
  pose proof (@C4_langevin_proposal demo_random (demo_state Langevin) 0%nat
                (demo_oracle [0]) eq_refl eq_refl) as H.
  cbv zeta in H. destruct H as (H1 & _ & H3). split.
  - eexists. eexists. apply (H1 [0 + 1] 1%nat). reflexivity.
  - apply H3; [exact R1_neq_R0 | reflexivity].
Defined.

Lemma C5_stepsize_restored_witness :
  exists v s',
    update_of MetropolisHastings 2 (demo_state MetropolisHastings) = Ret (v, s') /\
    lr (self s') = 1.
Proof.
  destruct (proj2 (@C5_stepsize_restored demo_random MetropolisHastings 2%nat
                     (demo_state MetropolisHastings))
                  1%nat demo_state1 demo_state2 demo_rejections demo_attempt2
                  (Nat.lt_succ_diag_r 1)) as (_ & v & s' & Hrun & Hlr).
  exists v, s'. split; [exact Hrun | exact Hlr].
Defined.


Lemma C7_step_counter_witness :
  number_of_steps (self demo_state2) =
  (number_of_steps (self demo_state1) + 1)%Z.
Proof.
  destruct (@C7_step_counter demo_random) as (_ & _ & _ & _ & _ & _ & _ & H & _ & _).
  exact (H MetropolisHastings demo_state1 true demo_state2 demo_attempt2).
Defined.

Lemma C8_gradient_ascent_update_witness :
  exists s', GradientAccent.update demo_ascent = Ret (fst (demo_oracle [0]), s') /\
             GradientAccent.number_of_steps (self s') = 1%Z.
Proof.
  destruct (@C8_gradient_ascent_update demo_random demo_ascent 0%nat eq_refl
              (Nat.lt_0_succ 0)) as (s' & Hrun & _ & _ & _ & _ & Hn & _).
  exists s'. split; [exact Hrun | exact Hn].
Defined.


Lemma C10_transition_frame_witness :
  exists r s', HamiltonyanMCMC.transition (demo_state Hamiltonyan) = Ret (r, s') /\
               self s' = self (demo_state Hamiltonyan).
Proof.
  pose proof (transition_run (demo_state Hamiltonyan) 0%nat (demo_oracle [0]) 2%Z
                eq_refl eq_refl eq_refl) as Hrun.
  cbv zeta in Hrun.
  eexists. eexists. split; [exact Hrun|].
  exact (proj1 (@C10_transition_frame demo_random _ _ _ Hrun)).
Defined.

(** C2, as stated, fails.  The current log-value is 0 and the candidate's
    is -1000, both finite; [np.exp(-1000 - 0)] is [0.0] in float64 and the
    ratio returned is 0, which is not in (0, 1]. *)
Lemma C2_counterexample :
  current_value (self (flat_state MetropolisHastings)) = Some (0, [0]) /\
  exists ratio,
    compute_alpha_with float_exp 1%nat (-1000, [0]) (flat_state MetropolisHastings) =
      Ret (ratio, flat_state MetropolisHastings) /\
    ratio = 0 /\ ~ (0 < ratio <= 1).
Proof.
  split; [reflexivity|].
  exists (py_min 1 (float_exp (fst (-1000, [0]) - fst (flat_oracle [0])))).
  split; [apply (@compute_alpha_with_run demo_random); reflexivity|].
  assert (E : py_min 1 (float_exp (fst (-1000, [0]) - fst (flat_oracle [0]))) = 0).
  { cbn [fst flat_oracle]. rewrite float_exp_underflow by lra.
    rewrite py_min_Rmin. apply Rmin_right. lra. }
  rewrite E. split; [reflexivity | lra].
Qed.


End Witnesses.

(** * Further properties of the code *)

(** ** Vectors of one shape *)

Lemma vadd_length (q p : Vec) (a : R) :
  length p = length q -> length (vadd q (vscale a p)) = length q.
Proof.
  unfold vadd, vscale. revert p. induction q as [|x q IH]; intros [|y p] H;
    cbn [map zip_with length] in *; try reflexivity; try discriminate.
  rewrite IH by lia. reflexivity.
Qed.

Lemma vadd_flat (p q : Vec) (a : R) :
  length p = length q -> vadd p (vscale a (zeros_like q)) = p.
Proof.
  unfold vadd, vscale, zeros_like. revert q. induction p as [|x p IH]; intros [|y q] H;
    cbn [map zip_with length] in *; try reflexivity; try discriminate.
  rewrite IH by lia. f_equal. lra.
Qed.

Lemma vadd_flat_half (p q : Vec) (a : R) :
  length p = length q -> vadd p (vdiv (vscale a (zeros_like q)) 2) = p.
Proof.
  unfold vadd, vdiv, vscale, zeros_like. revert q.
  induction p as [|x p IH]; intros [|y q] H;
    cbn [map zip_with length] in *; try reflexivity; try discriminate.
  rewrite IH by lia. f_equal. lra.
Qed.

Lemma flat_density_symmetric (stepsize : R) (a b : Vec) :
  vsum (vsq (vsub (vsub a b) (vscale stepsize (zeros_like b)))) =
  vsum (vsq (vsub (vsub b a) (vscale stepsize (zeros_like a)))).
Proof.
  unfold vsum, vsq, vsub, vscale, zeros_like.
  revert b. induction a as [|x a IH]; intros [|y b]; cbn [map zip_with fold_right];
    try reflexivity.
  rewrite IH. lra.
Qed.

(** ** The events and the momentum of the leapfrog loop *)

Lemma leapfrog_loop_targets (f : Oracle) (a : R) (ql pl : loc) (n : Z) (idx : list Z)
      (q p : Vec) (l : loc) (v : Vec) :
  In (IAdd l v) (snd (leapfrog_loop f a ql pl n idx q p)) -> l = ql \/ l = pl.
Proof.
  revert q p. induction idx as [|i idx IH]; intros q p; cbn [leapfrog_loop].
  - intros [].
  - destruct (negb (i =? n - 1)%Z); cbv zeta.
    + specialize (IH (vadd q (vscale a p))
                     (vadd p (vscale a (snd (f (vadd q (vscale a p))))))).
      destruct (leapfrog_loop f a ql pl n idx _ _) as [[qf pf] ev].
      cbn [snd] in *. intros [E|[E|[E|H]]]; try discriminate E.
      * inversion E. auto.
      * inversion E. auto.
      * auto.
    + specialize (IH (vadd q (vscale a p)) p).
      destruct (leapfrog_loop f a ql pl n idx _ _) as [[qf pf] ev].
      cbn [snd] in *. intros [E|H]; [inversion E; auto | auto].
Qed.

Lemma leapfrog_loop_calls (f : Oracle) (a : R) (ql pl : loc) (n : Z) (q p : Vec) :
  ql <> pl ->
  count_calls (snd (leapfrog_loop f a ql pl n (range n) q p)) =
  (Z.to_nat (Z.max n 1) - 1)%nat.
Proof.
  intros Hne. destruct (Z_le_gt_dec 1 n) as [Hn|Hn].
  - rewrite leapfrog_loop_range by exact Hn.
    pose proof (spec_leapfrog_counts f a ql pl Hne (Z.to_nat n - 1) q p []) as H.
    cbv zeta in H. destruct H as (_ & _ & H). rewrite H.
    unfold count_calls. cbn [List.filter length]. lia.
  - unfold range. replace (Z.to_nat n) with 0%nat by lia.
    cbn [seq map leapfrog_loop snd]. unfold count_calls. cbn [List.filter length]. lia.
Qed.

Lemma leapfrog_loop_flat (f : Oracle) (a : R) (ql pl : loc) (n : Z) (idx : list Z)
      (q p : Vec) :
  (forall y, snd (f y) = zeros_like y) ->
  length p = length q ->
  snd (fst (leapfrog_loop f a ql pl n idx q p)) = p /\
  length (fst (fst (leapfrog_loop f a ql pl n idx q p))) = length q.
Proof.
  intros Hf. revert q p. induction idx as [|i idx IH]; intros q p Hl; cbn [leapfrog_loop].
  - split; reflexivity.
  - pose proof (vadd_length q p a Hl) as Hq.
    destruct (negb (i =? n - 1)%Z); cbv zeta.
    + rewrite Hf, vadd_flat by lia.
      specialize (IH (vadd q (vscale a p)) p ltac:(lia)).
      destruct (leapfrog_loop f a ql pl n idx _ _) as [[qf pf] ev].
      cbn [fst snd] in *. destruct IH. split; [assumption | lia].
    + specialize (IH (vadd q (vscale a p)) p ltac:(lia)).
      destruct (leapfrog_loop f a ql pl n idx _ _) as [[qf pf] ev].
      cbn [fst snd] in *. destruct IH. split; [assumption | lia].
Qed.

Lemma filter_range_count (burn n : Z) :
  (-1 <= burn)%Z ->
  length (List.filter (fun i => (burn <? i)%Z) (range n)) = Z.to_nat (n - 1 - burn).
Proof.
  intros Hb. unfold range.
  replace (Z.to_nat (n - 1 - burn)) with (Z.to_nat (Z.of_nat (Z.to_nat n) - 1 - burn)) by lia.
  generalize (Z.to_nat n) as m. clear n.
  induction m as [|m IH]; [cbn; lia|].
  rewrite seq_S, map_app, List.filter_app, length_app, IH.
  cbn [map List.filter Nat.add].
  destruct (burn <? Z.of_nat m)%Z eqn:E; cbn [length].
  - apply Z.ltb_lt in E. lia.
  - apply Z.ltb_ge in E. lia.
Qed.

(** ** Effects of attempts and of [update] on the heap and the trace *)

Section EffectFacts.
Context {RS : Random}.
Import MetropolisHastingsMCMC.

Ltac effect_done :=
  eexists; eexists; (split; [reflexivity|]); (split; [reflexivity|]);
  (split; [reflexivity|]); (split; [reflexivity|]);
  (split; [intros ? ? [E|[]]; discriminate E|]); intros E; try discriminate E;
  try (split; [reflexivity | congruence]).

Lemma attempt_effect_MH s b s' :
  attempt_of MetropolisHastings s = Ret (b, s') -> attempt_effect MetropolisHastings s b s'.
Proof.
  intros H. destruct s as [o h g t]. destruct o as [f a d n c cv Lz].
  unfold attempt_of, update_body, transition, compute_alpha, draw_mvn in H.
  minv H; inversion H; subst; clear H; unfold attempt_effect; mrun; effect_done.
Qed.

Lemma attempt_effect_Langevin s b s' :
  attempt_of Langevin s = Ret (b, s') -> attempt_effect Langevin s b s'.
Proof.
  intros H. destruct s as [o h g t]. destruct o as [f a d n c cv Lz].
  unfold attempt_of, update_body, LangevinMCMC.transition, LangevinMCMC.compute_alpha,
    LangevinMCMC.proposal_a_given_b, draw_mvn in H.
  minv H; inversion H; subst; clear H; unfold attempt_effect; mrun; effect_done.
Qed.

Lemma attempt_effect_HMC s b s' :
  attempt_of Hamiltonyan s = Ret (b, s') -> attempt_effect Hamiltonyan s b s'.
Proof.
  intros H. unfold attempt_of, HamiltonyanMCMC.update_body in H.
  apply bind_inv in H. destruct H as (r & s1 & Ht & H).
  destruct (transition_inv _ _ _ Ht) as (c & cv & n & Hc & Hv & HL).
  pose proof (transition_run s c cv n Hc Hv HL) as Hrun. cbv zeta in Hrun.
  rewrite Hrun in Ht. inversion Ht; subst r s1; clear Ht Hrun.
  assert (Hne : length (heap s) <> S (length (heap s))) by lia.
  pose proof (leapfrog_loop_calls (oracle (self s)) (lr (self s)) _ _ n
                (heap s !!! c)
                (vadd (fst (normal (length ((heap s ++ [heap s !!! c]) !!! c)) (rng s)))
                      (vdiv (vscale (lr (self s)) (snd cv)) 2)) Hne) as Hcalls.
  pose proof (fun l v => leapfrog_loop_targets (oracle (self s)) (lr (self s))
                (length (heap s)) (S (length (heap s))) n (range n)
                (heap s !!! c)
                (vadd (fst (normal (length ((heap s ++ [heap s !!! c]) !!! c)) (rng s)))
                      (vdiv (vscale (lr (self s)) (snd cv)) 2)) l v) as Htargets.
  destruct (leapfrog_loop _ _ _ _ n (range n) _ _) as [[qf pf] ev].
  cbn [fst snd] in *.
  assert (Hcount : count_calls
            ([IAdd (S (length (heap s))) (vdiv (vscale (lr (self s)) (snd cv)) 2)] ++
             ev ++ [Call qf; IAdd (S (length (heap s)))
                               (vdiv (vscale (lr (self s)) (snd (oracle (self s) qf))) 2)]) =
            calls_per_attempt Hamiltonyan (self s)).
  { unfold calls_per_attempt. rewrite HL. rewrite !count_calls_app, Hcalls.
    unfold count_calls. cbn [List.filter is_call length]. lia. }
  assert (Hin : forall l v,
            In (IAdd l v)
               ([IAdd (S (length (heap s))) (vdiv (vscale (lr (self s)) (snd cv)) 2)] ++
                ev ++ [Call qf; IAdd (S (length (heap s)))
                               (vdiv (vscale (lr (self s)) (snd (oracle (self s) qf))) 2)]) ->
            (length (heap s) <= l)%nat).
  { intros l v Hi. apply in_app_or in Hi. destruct Hi as [[E|[]]|Hi].
    - inversion E. lia.
    - apply in_app_or in Hi. destruct Hi as [Hi|[E|[E|[]]]].
      + destruct (Htargets _ _ Hi); lia.
      + discriminate E.
      + inversion E. lia. }
  clear Hcalls Htargets.
  unfold attempt_effect.
  destruct s as [o h g t]. destruct o as [f a d m c0 cv0 Lz].
  cbn [self heap rng trace oracle lr L current current_value] in *.
  minv H; inversion H; subst; clear H; mrun;
    eexists; eexists; (split; [reflexivity|]); (split; [reflexivity|]);
    (split; [reflexivity|]); (split; [exact Hcount|]); (split; [exact Hin|]);
    intros E; try discriminate E;
    (split; [reflexivity|]); rewrite heap_at_q; congruence.
Qed.

Lemma attempt_of_effect k s b s' :
  attempt_of k s = Ret (b, s') -> attempt_effect k s b s'.
Proof.
  destruct k; [apply attempt_effect_MH | apply attempt_effect_Langevin
               | apply attempt_effect_HMC].
Qed.

Lemma rejections_effect k n s s1 :
  rejections (attempt_of k) n s s1 ->
  exists new ev,
    heap s1 = heap s ++ new /\ length new = (n * cells_per_attempt k)%nat /\
    trace s1 = trace s ++ ev /\
    count_calls ev = (n * calls_per_attempt k (self s))%nat /\
    (forall l v, In (IAdd l v) ev -> (length (heap s) <= l)%nat).
Proof.
  induction 1 as [s|n s s1 s2 Hb Hr IH].
  - exists [], []. rewrite !app_nil_r. repeat split. intros l v [].
  - destruct (attempt_of_effect _ _ _ _ Hb) as (new1 & ev1 & Hh1 & Hl1 & Ht1 & Hc1 & Hi1 & _).
    destruct IH as (new2 & ev2 & Hh2 & Hl2 & Ht2 & Hc2 & Hi2).
    assert (HL : calls_per_attempt k (self s1) = calls_per_attempt k (self s)).
    { destruct (attempt_of_post _ _ _ _ Hb) as (_ & _ & _ & _ & HL & _).
      unfold calls_per_attempt. rewrite HL. reflexivity. }
    exists (new1 ++ new2), (ev1 ++ ev2). repeat split.
    + rewrite Hh2, Hh1, app_assoc. reflexivity.
    + rewrite length_app, Hl1, Hl2. lia.
    + rewrite Ht2, Ht1, app_assoc. reflexivity.
    + rewrite count_calls_app, Hc1, Hc2, HL. lia.
    + intros l v Hi. apply in_app_or in Hi. destruct Hi as [Hi|Hi].
      * eapply Hi1; eauto.
      * apply Hi2 in Hi. rewrite Hh1, length_app in Hi. lia.
Qed.

Lemma update_of_effect k fuel s v s' :
  update_of k fuel s = Ret (v, s') ->
  exists n new ev c',
    (n < fuel)%nat /\
    number_of_steps (self s') = (number_of_steps (self s) + Z.of_nat (n + 1))%Z /\
    heap s' = heap s ++ new /\ length new = ((n + 1) * cells_per_attempt k)%nat /\
    trace s' = trace s ++ ev /\
    count_calls ev = ((n + 1) * calls_per_attempt k (self s))%nat /\
    (forall l w, In (IAdd l w) ev -> (length (heap s) <= l)%nat) /\
    current (self s') = Some c' /\
    (length (heap s) <= c' < length (heap s'))%nat /\
    current_value (self s') = Some (oracle (self s') (heap s' !!! c')) /\
    v = fst (oracle (self s') (heap s' !!! c')) /\
    oracle (self s') = oracle (self s).
Proof.
  intros H.
  destruct (update_of_inv _ _ _ _ _ H) as (n & s1 & s2 & cv & Hn & Hr & Ha & Hcv & Hv & ->).
  destruct (rejections_effect _ _ _ _ Hr) as (new1 & ev1 & Hh1 & Hl1 & Ht1 & Hc1 & Hi1).
  destruct (rejections_post _ _ _ _ Hr) as (Ho1 & _ & _ & Hs1 & HL1 & _).
  destruct (attempt_of_effect _ _ _ _ Ha) as (new2 & ev2 & Hh2 & Hl2 & Ht2 & Hc2 & Hi2 & Hacc).
  destruct (attempt_of_post _ _ _ _ Ha) as (Ho2 & _ & _ & Hs2 & _).
  destruct (Hacc eq_refl) as (Hcur & Hval).
  exists n, (new1 ++ new2), (ev1 ++ ev2), (length (heap s1)).
  cbn [self heap trace set_lr oracle current current_value number_of_steps].
  assert (HL : calls_per_attempt k (self s1) = calls_per_attempt k (self s)).
  { unfold calls_per_attempt. rewrite HL1. reflexivity. }
  repeat split.
  - exact Hn.
  - rewrite Hs2, Hs1. lia.
  - rewrite Hh2, Hh1, app_assoc. reflexivity.
  - rewrite length_app, Hl1, Hl2. lia.
  - rewrite Ht2, Ht1, app_assoc. reflexivity.
  - rewrite count_calls_app, Hc1, Hc2, HL. lia.
  - intros l w Hi. apply in_app_or in Hi. destruct Hi as [Hi|Hi].
    + eapply Hi1; eauto.
    + apply Hi2 in Hi. rewrite Hh1, length_app in Hi. lia.
  - exact Hcur.
  - rewrite Hh1, length_app. lia.
  - rewrite Hh2, length_app, Hl2. destruct k; cbn [cells_per_attempt]; lia.
  - rewrite Hval, Ho2. reflexivity.
  - rewrite Hv. rewrite Hval in Hcv. inversion Hcv. rewrite Ho2. reflexivity.
  - congruence.
Qed.

(** ** Errors *)

Lemma while_raise {O} (body : M O bool) n s s1 e fuel :
  rejections body n s s1 -> body s1 = Raise e -> (n < fuel)%nat ->
  while_not_accepted fuel body s = Raise e.
Proof.
  intros Hr. revert fuel. induction Hr as [s|n s s1 s2 Hb Hr IH]; intros fuel Ha Hn.
  - destruct fuel; [lia|]. simpl. unfold bind. rewrite Ha. reflexivity.
  - destruct fuel; [lia|]. simpl. unfold bind. rewrite Hb. apply IH; [exact Ha | lia].
Qed.

Lemma update_of_raise k n fuel s s1 e :
  rejections (attempt_of k) n s s1 -> attempt_of k s1 = Raise e -> (n < fuel)%nat ->
  update_of k fuel s = Raise e.
Proof.
  intros Hr Ha Hn. rewrite update_of_unfold.
  unfold bind at 1. unfold attr at 1. unfold bind at 1.
  rewrite (while_raise _ _ _ _ _ _ Hr Ha Hn). reflexivity.
Qed.

Lemma attempt_uninitialised (k : sampler) (s : St obj) :
  current (self s) = None -> attempt_of k s = Raise AttributeError.
Proof.
  intros Hc. destruct s as [o h g t]. destruct o as [f a d n c cv Lz].
  cbn [self current] in Hc. subst c.
  destruct k; reflexivity.
Qed.

Lemma attempt_refused (s : St obj) (c : loc) :
  current (self s) = Some c ->
  (mvn_rvs (heap s !!! c) (lr (self s)) (rng s) = None ->
   attempt_of MetropolisHastings s = Raise LibraryError) /\
  (mvn_rvs (zeros_like (heap s !!! c)) 1 (rng s) = None ->
   attempt_of Langevin s = Raise LibraryError).
Proof.
  intros Hc. destruct s as [o h g t]. destruct o as [f a d n c0 cv Lz].
  cbn [self heap rng current lr] in *. subst c0.
  split; intros Hd.
  - unfold attempt_of, update_body, transition, draw_mvn. mrun. rewrite Hd. reflexivity.
  - unfold attempt_of, update_body, LangevinMCMC.transition, draw_mvn. mrun.
    rewrite Hd. reflexivity.
Qed.

(** ** Single attempts, explicitly *)

Lemma attempt_MH_run (s : St obj) (c : loc) (cv : OracleResult) (x : Vec) (g : Rng) :
  current (self s) = Some c ->
  current_value (self s) = Some cv ->
  mvn_rvs (heap s !!! c) (lr (self s)) (rng s) = Some (x, g) ->
  let new := length (heap s) in
  let nv := oracle (self s) x in
  let alpha := py_min 1 (exp (fst nv - fst cv)) in
  let o' := set_lr (lr (self s) * lr_decay (self s)) (self s) in
  attempt_of MetropolisHastings s =
    Ret (Rgtb alpha (fst (uniform 0 1 g)),
         mkSt (set_number_of_steps (number_of_steps (self s) + 1)
                 (if Rgtb alpha (fst (uniform 0 1 g))
                  then set_current_value nv (set_current new o') else o'))
              (heap s ++ [x]) (snd (uniform 0 1 g)) (trace s ++ [Call x])).
Proof.
  intros Hc Hv Hd. destruct s as [o h g0 t]. destruct o as [f a d n c0 cv0 Lz].
  cbn [self heap rng trace current current_value lr lr_decay oracle number_of_steps] in *.
  subst c0 cv0. cbv zeta.
  unfold attempt_of, update_body, transition, compute_alpha, draw_mvn.
  mrun. rewrite Hd. rewrite heap_at_q.
  destruct (Rgtb _ _); reflexivity.
Qed.

Lemma Langevin_alpha_run (s : St obj) (c : loc) (cv nv : OracleResult) (new : loc) :
  current (self s) = Some c ->
  current_value (self s) = Some cv ->
  LangevinMCMC.compute_alpha new nv s =
    Ret (py_min 1
           (exp (fst nv - fst cv) *
            exp (transition_log_density (lr (self s)) (heap s !!! c) (heap s !!! new) cv nv -
                 transition_log_density (lr (self s)) (heap s !!! new) (heap s !!! c) nv cv)),
         s).
Proof.
  intros Hc Hv.
  destruct s as [o h g t]. destruct o as [f a d n c0 cv0 Lz].
  cbn [self current current_value] in Hc, Hv. subst c0 cv0.
  unfold LangevinMCMC.compute_alpha, LangevinMCMC.proposal_a_given_b,
    transition_log_density.
  mrun. reflexivity.
Qed.

End EffectFacts.

(** * Further theorems *)

Section Extras.
Context {RS : Random}.
Import MetropolisHastingsMCMC.

(** X1.  [update()] on a sampler that was constructed and never
    initialised fails with an attribute error: [self.current] does not
    exist yet.  This holds for [GradientAccent] and for the three classes
    of the family (whose loop needs fuel for one iteration to get there). *)
Theorem X1_update_before_initialize :
  (forall (s : St GradientAccent.obj),
     GradientAccent.current (self s) = None ->
     GradientAccent.update s = Raise AttributeError) /\
  (forall k fuel (s : St obj),
     current (self s) = None ->
     update_of k (S fuel) s = Raise AttributeError) /\
  (forall f a h g t o,
     GradientAccent.new f a = Ret o ->
     GradientAccent.update (mkSt o h g t) = Raise AttributeError) /\
  (forall k f a d n fuel h g t o,
     MetropolisHastingsMCMC.new f a d = Ret o \/ LangevinMCMC.new f a d = Ret o \/
     HamiltonyanMCMC.new f a d n = Ret o ->
     update_of k (S fuel) (mkSt o h g t) = Raise AttributeError).
Proof.
  assert (G : forall (s : St GradientAccent.obj),
             GradientAccent.current (self s) = None ->
             GradientAccent.update s = Raise AttributeError).
  { intros s Hc. destruct s as [o h g t]. destruct o as [f n a c].
    cbn [self GradientAccent.current] in Hc. subst c. reflexivity. }
  assert (F : forall k fuel (s : St obj),
             current (self s) = None -> update_of k (S fuel) s = Raise AttributeError).
  { intros k fuel s Hc.
    apply (update_of_raise k 0 (S fuel) s s).
    - constructor.
    - apply attempt_uninitialised. exact Hc.
    - lia. }
  repeat apply conj.
  - exact G.
  - exact F.
  - intros f a h g t o H. inversion H. apply G. reflexivity.
  - intros k f a d n fuel h g t o H. apply F.
    destruct H as [H|[H|H]]; inversion H; reflexivity.
Qed.

(** X2.  An error in an attempt ends [update()] with that error, whatever
    the number of attempts rejected before it: the loop has no handler and
    does not retry. *)
Theorem X2_update_error_propagates (k : sampler) (n fuel : nat) (s s1 : St obj)
        (e : exn) :
  rejections (attempt_of k) n s s1 ->
  attempt_of k s1 = Raise e ->
  (n < fuel)%nat ->
  update_of k fuel s = Raise e.
Proof. apply update_of_raise. Qed.

(** X3.  On an initialised Metropolis-Hastings or Langevin sampler, when
    scipy refuses the draw of the proposal (the covariance [lr] for the
    first, the unit covariance for the second), [update()] fails with the
    library's error on the first attempt. *)
Theorem X3_refused_draw_raises (fuel : nat) (s : St obj) (c : loc) :
  current (self s) = Some c ->
  (mvn_rvs (heap s !!! c) (lr (self s)) (rng s) = None ->
   update_of MetropolisHastings (S fuel) s = Raise LibraryError) /\
  (mvn_rvs (zeros_like (heap s !!! c)) 1 (rng s) = None ->
   update_of Langevin (S fuel) s = Raise LibraryError).
Proof.
  intros Hc. destruct (attempt_refused s c Hc) as [H1 H2].
  split; intros Hd.
  - eapply (update_of_raise MetropolisHastings 0 (S fuel));
      [apply rejections_O | apply H1; exact Hd | lia].
  - eapply (update_of_raise Langevin 0 (S fuel));
      [apply rejections_O | apply H2; exact Hd | lia].
Qed.

(** X5.  [initialize(point)] of the family, on any object: it stores the
    reference to the caller's array (no copy), calls the oracle once, at
    that array, and stores the result; the stepsize, the decay, [L], the
    step counter, the heap and the generator are as before.  A sampler
    that was constructed and then initialised is initialised, and a
    sampler that is initialised is still so after every [update()] that
    returns. *)
Theorem X5_initialize_effect (k : sampler) :
  (forall (s : St obj) l,
     exists s',
       initialize l s = Ret (tt, s') /\
       current (self s') = Some l /\
       current_value (self s') = Some (oracle (self s) (heap s !!! l)) /\
       trace s' = trace s ++ [Call (heap s !!! l)] /\
       heap s' = heap s /\ rng s' = rng s /\
       oracle (self s') = oracle (self s) /\ lr (self s') = lr (self s) /\
       lr_decay (self s') = lr_decay (self s) /\ L (self s') = L (self s) /\
       number_of_steps (self s') = number_of_steps (self s)) /\
  (forall f a d n o h g t l s',
     (k <> Hamiltonyan /\ MetropolisHastingsMCMC.new f a d = Ret o) \/
     (k = Hamiltonyan /\ HamiltonyanMCMC.new f a d n = Ret o) ->
     initialize l (mkSt o h g t) = Ret (tt, s') ->
     initialised k s') /\
  (forall fuel (s : St obj) v s',
     initialised k s ->
     update_of k fuel s = Ret (v, s') ->
     initialised k s').
Proof.
  repeat apply conj.
  - intros s l. destruct s as [o h g t]. destruct o as [f a d n c cv Lz].
    eexists. split; [reflexivity|]. cbn. repeat split.
  - intros f a d n o h g t l s' H Hi.
    destruct H as [[Hk H]|[Hk H]]; inversion H; subst o;
      inversion Hi; subst s';
      unfold initialised; cbn; repeat split; try discriminate; congruence.
  - intros fuel s v s' (_ & _ & HL) H.
    destruct (update_of_inv _ _ _ _ _ H) as (n & s1 & s2 & cv & _ & Hr & Ha & Hcv & _ & ->).
    destruct (rejections_post _ _ _ _ Hr) as (_ & _ & _ & _ & HL1 & _).
    destruct (attempt_of_post _ _ _ _ Ha)
      as (_ & _ & _ & _ & HL2 & _ & cand & nv & alpha & s3 & _ & _ & _ & Hacc).
    destruct (Hacc eq_refl) as (Hcur & Hnv).
    unfold initialised. cbn [self set_lr current current_value L].
    rewrite Hcur, Hnv, HL2, HL1. repeat split; try discriminate. exact HL.
Qed.

(** X6.  A call of [update()] that returns, on a sampler of any of the
    three classes, only allocates: with [n] rejected attempts it appends
    [n + 1] arrays (three times as many for the Hamiltonian class) to the
    heap, every array that existed before keeps its contents, every
    in-place addition of the call lands in one of the new arrays, and the
    new position is one of the new arrays.  Positions read from
    [sampler.current] before the call are therefore not altered by it. *)
Theorem X6_update_allocates_only (k : sampler) (fuel : nat) (s : St obj) (v : R)
        (s' : St obj) :
  update_of k fuel s = Ret (v, s') ->
  exists n new ev c',
    number_of_steps (self s') = (number_of_steps (self s) + Z.of_nat (n + 1))%Z /\
    heap s' = heap s ++ new /\
    length new = ((n + 1) * cells_per_attempt k)%nat /\
    (forall l, (l < length (heap s))%nat -> heap s' !!! l = heap s !!! l) /\
    trace s' = trace s ++ ev /\
    (forall l w, In (IAdd l w) ev -> (length (heap s) <= l)%nat) /\
    current (self s') = Some c' /\
    (length (heap s) <= c' < length (heap s'))%nat.
Proof.
  intros H.
  destruct (update_of_effect _ _ _ _ _ H)
    as (n & new & ev & c' & _ & Hs & Hh & Hl & Ht & _ & Hi & Hc & Hb & _).
  exists n, new, ev, c'. repeat split; try assumption; try lia.
  intros l Hlt. rewrite Hh. apply lookup_total_app_l. exact Hlt.
Qed.

(** X7.  A call of [update()] that returns leaves the sampler with
    [current_value] equal to the oracle's result at the contents of
    [current], and the value returned is the log-value there: the family
    returns the log-value after the move, where [GradientAccent] returns
    the one before it. *)
Theorem X7_update_returns_log_value_at_current (k : sampler) (fuel : nat) (s : St obj)
        (v : R) (s' : St obj) :
  update_of k fuel s = Ret (v, s') ->
  exists c',
    current (self s') = Some c' /\
    (c' < length (heap s'))%nat /\
    oracle (self s') = oracle (self s) /\
    current_value (self s') = Some (oracle (self s') (heap s' !!! c')) /\
    v = fst (oracle (self s') (heap s' !!! c')).
Proof.
  intros H.
  destruct (update_of_effect _ _ _ _ _ H)
    as (n & new & ev & c' & _ & _ & _ & _ & _ & _ & _ & Hc & Hb & Hv & Hr & Ho).
  exists c'. repeat split; try assumption. lia.
Qed.

(** X8.  The oracle calls of a call of [update()] that returns after [n]
    rejected attempts: [n + 1] for the Metropolis-Hastings and Langevin
    samplers (one per candidate), and [(n + 1) * max(L, 1)] for the
    Hamiltonian sampler. *)
Theorem X8_update_oracle_calls (k : sampler) (fuel : nat) (s : St obj) (v : R)
        (s' : St obj) :
  update_of k fuel s = Ret (v, s') ->
  exists n ev,
    number_of_steps (self s') = (number_of_steps (self s) + Z.of_nat (n + 1))%Z /\
    trace s' = trace s ++ ev /\
    count_calls ev = ((n + 1) * calls_per_attempt k (self s))%nat.
Proof.
  intros H.
  destruct (update_of_effect _ _ _ _ _ H)
    as (n & new & ev & c' & _ & Hs & _ & _ & Ht & Hc & _).
  exists n, ev. repeat split; assumption.
Qed.

(** X9.  The Metropolis-Hastings sampler never rejects an improvement: on
    an initialised sampler, when the candidate drawn has a log-value at
    least the current one and the uniform draw is below 1, [update()]
    returns after a single attempt, at the candidate, with the candidate's
    log-value, one more step counted and the stepsize as on entry. *)
Theorem X9_MH_accepts_uphill (fuel : nat) (s : St obj) (c : loc) (cv : OracleResult)
        (x : Vec) (g : Rng) :
  current (self s) = Some c ->
  current_value (self s) = Some cv ->
  mvn_rvs (heap s !!! c) (lr (self s)) (rng s) = Some (x, g) ->
  fst (uniform 0 1 g) < 1 ->
  fst cv <= fst (oracle (self s) x) ->
  update_of MetropolisHastings (S fuel) s =
    Ret (fst (oracle (self s) x),
         mkSt (set_number_of_steps (number_of_steps (self s) + 1)
                 (set_current_value (oracle (self s) x)
                    (set_current (length (heap s)) (self s))))
              (heap s ++ [x]) (snd (uniform 0 1 g)) (trace s ++ [Call x])).
Proof.
  intros Hc Hv Hd Hth Hup.
  pose proof (attempt_MH_run s c cv x g Hc Hv Hd) as Ha. cbv zeta in Ha.
  assert (E : py_min 1 (exp (fst (oracle (self s) x) - fst cv)) = 1).
  { rewrite py_min_Rmin. apply Rmin_left. rewrite <- exp_0.
    destruct (Req_dec (fst (oracle (self s) x) - fst cv) 0) as [E|E].
    - rewrite E. lra.
    - left. apply exp_increasing. lra. }
  rewrite E, (Rgtb_true _ _ Hth) in Ha.
  destruct (update_of_run MetropolisHastings 0 s s _ (S fuel) (rejections_O _ s) Ha)
    as (cv' & Hcv' & Hrun); [lia|].
  rewrite Hrun. cbn [self current_value set_number_of_steps set_current_value] in Hcv'.
  inversion Hcv'. subst cv'.
  destruct s as [o h g0 t]. destruct o as [f a d n c0 cv0 Lz]. reflexivity.
Qed.

(** X10.  Whenever [LangevinMCMC.compute_alpha] returns, the ratio lies in
    the closed interval [0, 1] and nothing has changed. *)
Theorem X10_Langevin_ratio_bounds (s s' : St obj) (new : loc) (nv : OracleResult)
        (r : R) :
  LangevinMCMC.compute_alpha new nv s = Ret (r, s') ->
  0 <= r <= 1 /\ s' = s.
Proof.
  intros H.
  destruct (current (self s)) as [c|] eqn:Hc;
    [destruct (current_value (self s)) as [cv|] eqn:Hv|].
  - rewrite (Langevin_alpha_run s c cv nv new Hc Hv) in H. inversion H; subst.
    split; [|reflexivity].
    rewrite py_min_Rmin.
    match goal with |- 0 <= Rmin 1 (?a * ?b) <= 1 =>
      assert (0 < a * b) by (apply Rmult_lt_0_compat; apply exp_pos);
      unfold Rmin; destruct (Rle_dec 1 (a * b)); lra end.
  - exfalso. destruct s as [o h g t]. destruct o as [f a d n c0 cv0 Lz].
    cbn [self current current_value] in *. subst.
    unfold LangevinMCMC.compute_alpha in H. mrun. discriminate H.
  - exfalso. destruct s as [o h g t]. destruct o as [f a d n c0 cv0 Lz].
    cbn [self current current_value] in *. subst.
    unfold LangevinMCMC.compute_alpha in H. destruct cv0; mrun; discriminate H.
Qed.

(** X11.  Where the gradient vanishes at the current point and at the
    candidate, the two proposal densities of the Langevin ratio cancel and
    [LangevinMCMC.compute_alpha] is [MetropolisHastingsMCMC.compute_alpha]. *)
Theorem X11_Langevin_flat_is_MH (s : St obj) (c new : loc) (cv nv : OracleResult) :
  current (self s) = Some c ->
  current_value (self s) = Some cv ->
  length (heap s !!! new) = length (heap s !!! c) ->
  snd cv = zeros_like (heap s !!! c) ->
  snd nv = zeros_like (heap s !!! new) ->
  LangevinMCMC.compute_alpha new nv s = MetropolisHastingsMCMC.compute_alpha new nv s.
Proof.
  intros Hc Hv _ Hz Hz'.
  rewrite (Langevin_alpha_run s c cv nv new Hc Hv).
  unfold transition_log_density. rewrite Hz, Hz'.
  rewrite (flat_density_symmetric (lr (self s)) (heap s !!! c) (heap s !!! new)).
  match goal with
  | |- context [exp (?u - ?u)] => replace (u - u) with 0 by lra
  end.
  rewrite exp_0, Rmult_1_r.
  destruct s as [o h g t]. destruct o as [f a d n c0 cv0 Lz].
  cbn [self current_value] in Hv. subst cv0.
  unfold compute_alpha. mrun. reflexivity.
Qed.

(** X12.  With [L <= 0] the loop of [HamiltonyanMCMC.transition()] does
    not run: the candidate is a copy of the current position, never
    moved; the oracle is called once, at it; and the momentum receives
    its two half steps only. *)
Theorem X12_HMC_no_leapfrog_steps (s : St obj) (c : loc) (cv : OracleResult) (n : Z) :
  current (self s) = Some c ->
  (c < length (heap s))%nat ->
  current_value (self s) = Some cv ->
  L (self s) = Some n ->
  (n <= 0)%Z ->
  let x := heap s !!! c in
  let p0 := fst (normal (length x) (rng s)) in
  let pl := S (length (heap s)) in
  let half0 := vdiv (vscale (lr (self s)) (snd cv)) 2 in
  let nv := oracle (self s) x in
  let halfF := vdiv (vscale (lr (self s)) (snd nv)) 2 in
  let pF := vadd (vadd p0 half0) halfF in
  HamiltonyanMCMC.transition s =
    Ret ((length (heap s), nv,
          exp (- fst cv - - fst nv + vsum (vsq p0) / 2 - vsum (vsq pF) / 2)),
         mkSt (self s) (heap s ++ [x; pF; p0]) (snd (normal (length x) (rng s)))
              (trace s ++ [IAdd pl half0; Call x; IAdd pl halfF])).
Proof.
  intros Hc Hl Hv HL Hn.
  pose proof (transition_run s c cv n Hc Hv HL) as Hrun. cbv zeta in Hrun.
  rewrite lookup_total_app_l in Hrun by exact Hl.
  unfold range in Hrun. replace (Z.to_nat n) with 0%nat in Hrun by lia.
  cbn [seq map leapfrog_loop fst snd app] in Hrun.
  exact Hrun.
Qed.

(** X13.  On a flat target (zero gradient everywhere) the momentum of
    [HamiltonyanMCMC.transition()] ends as it was drawn, for every [L]:
    the kinetic energies cancel and the ratio is
    [exp(candidate log-value - current log-value)].  The momentum drawn
    has the shape of the position. *)
Theorem X13_HMC_flat_potential (s : St obj) (c : loc) (cv : OracleResult) (n : Z) :
  current (self s) = Some c ->
  (c < length (heap s))%nat ->
  current_value (self s) = Some cv ->
  L (self s) = Some n ->
  (forall y, snd (oracle (self s) y) = zeros_like y) ->
  snd cv = zeros_like (heap s !!! c) ->
  length (fst (normal (length (heap s !!! c)) (rng s))) = length (heap s !!! c) ->
  let p0 := fst (normal (length (heap s !!! c)) (rng s)) in
  exists q ev,
    length q = length (heap s !!! c) /\
    HamiltonyanMCMC.transition s =
      Ret ((length (heap s), oracle (self s) q,
            exp (fst (oracle (self s) q) - fst cv)),
           mkSt (self s) (heap s ++ [q; p0; p0])
                (snd (normal (length (heap s !!! c)) (rng s))) (trace s ++ ev)).
Proof.
  intros Hc Hl Hv HL Hf Hz Hp p0.
  pose proof (transition_run s c cv n Hc Hv HL) as Hrun. cbv zeta in Hrun.
  rewrite lookup_total_app_l in Hrun by exact Hl.
  fold p0 in Hrun.
  rewrite Hz in Hrun. rewrite (vadd_flat_half p0 (heap s !!! c)) in Hrun by exact Hp.
  destruct (leapfrog_loop_flat (oracle (self s)) (lr (self s)) (length (heap s))
              (S (length (heap s))) n (range n) (heap s !!! c) p0 Hf Hp) as [Hpf Hqf].
  destruct (leapfrog_loop _ _ _ _ n (range n) _ _) as [[qf pf] ev].
  cbn [fst snd] in *. subst pf.
  rewrite Hf in Hrun. rewrite (vadd_flat_half p0 qf) in Hrun by (rewrite Hqf; exact Hp).
  exists qf. eexists. split; [exact Hqf|]. rewrite Hrun. do 3 f_equal. f_equal. lra.
Qed.

(** X14.  [GradientAccent.initialize(a)] followed by [update()], from any
    state of the object: [initialize] calls no oracle and keeps the
    reference to the caller's array, so that the one oracle call of
    [update()] is at that array and the move is written into it, in place;
    the value returned is the log-value before the move. *)
Theorem X14_GradientAccent_initialize_then_update (s : St GradientAccent.obj) (l : loc) :
  (l < length (heap s))%nat ->
  let x := heap s !!! l in
  let r := GradientAccent.oracle (self s) x in
  let moved := vadd x (vscale (GradientAccent.lr (self s)) (snd r)) in
  bind (GradientAccent.initialize l) (fun _ => GradientAccent.update) s =
    Ret (fst r,
         mkSt (GradientAccent.mkObj (GradientAccent.oracle (self s))
                 (GradientAccent.number_of_steps (self s) + 1)
                 (GradientAccent.lr (self s)) (Some l))
              (<[l := moved]> (heap s)) (rng s)
              (trace s ++ [Call x; IAdd l (vscale (GradientAccent.lr (self s)) (snd r))])) /\
  <[l := moved]> (heap s) !!! l = moved.
Proof.
  intros Hl x r moved. split.
  - unfold bind at 1. unfold GradientAccent.initialize, assign.
    rewrite (GradientAccent_update_run _ l) by reflexivity. reflexivity.
  - apply list_lookup_total_insert_eq. exact Hl.
Qed.

(** X15.  The loop of the script: when it returns, it has appended one
    position per index above the burn-in, that is [n - 1 - burn] of them
    over [range(n)] (899 for the 1000 iterations and the test [i > 100] of
    the source); the positions collected are distinct arrays, all created
    by the loop; the heap has only grown; the stepsize is as at the start
    and the step counter has grown by at least the number of iterations. *)
Theorem X15_run_chain_effect (k : sampler) (fuel : nat) (burn : Z) (idx : list Z)
        (values : list loc) (s : St obj) (vals : list loc) (s' : St obj) :
  run_chain k fuel burn idx values s = Ret (vals, s') ->
  exists added new,
    vals = values ++ added /\
    length added = length (List.filter (fun i => (burn <? i)%Z) idx) /\
    (forall n, idx = range n -> (-1 <= burn)%Z ->
               length added = Z.to_nat (n - 1 - burn)) /\
    (idx = range 1000 -> burn = 100%Z -> length added = 899%nat) /\
    heap s' = heap s ++ new /\
    Forall (fun l => (length (heap s) <= l < length (heap s'))%nat) added /\
    NoDup added /\
    lr (self s') = lr (self s) /\
    (number_of_steps (self s) + Z.of_nat (length idx) <= number_of_steps (self s'))%Z.
Proof.
  intros H.
  assert (G : exists added new,
    vals = values ++ added /\
    length added = length (List.filter (fun i => (burn <? i)%Z) idx) /\
    heap s' = heap s ++ new /\
    Forall (fun l => (length (heap s) <= l < length (heap s'))%nat) added /\
    NoDup added /\
    lr (self s') = lr (self s) /\
    (number_of_steps (self s) + Z.of_nat (length idx) <= number_of_steps (self s'))%Z).
  { revert values s H. induction idx as [|i idx IH]; intros values s H.
    - cbn [run_chain] in H. unfold ret in H. inversion H; subst.
      exists [], []. rewrite !app_nil_r. repeat split; try constructor. cbn. lia.
    - cbn [run_chain] in H.
      apply bind_inv in H. destruct H as (v & s1 & Hu & H).
      apply bind_inv in H. destruct H as (next & s1' & Hn & H).
      destruct (update_of_effect _ _ _ _ _ Hu)
        as (n & new1 & ev & c' & _ & Hs1 & Hh1 & _ & _ & _ & _ & Hcur & Hb & _).
      assert (Hlr : lr (self s1) = lr (self s)).
      { destruct (update_of_inv _ _ _ _ _ Hu) as (? & ? & ? & ? & _ & _ & _ & _ & _ & ->).
        reflexivity. }
      unfold attr_set in Hn. rewrite Hcur in Hn. inversion Hn; subst next s1'; clear Hn.
      destruct (IH _ _ H) as (added & new2 & Hv & Hl & Hh2 & Hf & Hnd & Hlr2 & Hs2).
      assert (Hlen : (length (heap s1) <= length (heap s'))%nat)
        by (rewrite Hh2, length_app; lia).
      assert (Hf' : Forall (fun l => (length (heap s) <= l < length (heap s'))%nat) added).
      { eapply Forall_impl; [exact Hf|]. cbn. intros l Hl'.
        rewrite Hh1, length_app in Hl'. lia. }
      assert (Hnotin : c' ∉ added).
      { intros Hin. rewrite Forall_forall in Hf.
        specialize (Hf _ Hin). cbn in Hf. lia. }
      cbn [List.filter length].
      destruct (burn <? i)%Z.
      + exists (c' :: added), (new1 ++ new2). repeat split.
        * rewrite Hv, <- app_assoc. reflexivity.
        * cbn [length]. lia.
        * rewrite Hh2, Hh1, app_assoc. reflexivity.
        * constructor; [lia | exact Hf'].
        * apply NoDup_cons. split; [exact Hnotin | exact Hnd].
        * congruence.
        * lia.
      + exists added, (new1 ++ new2). repeat split.
        * exact Hv.
        * exact Hl.
        * rewrite Hh2, Hh1, app_assoc. reflexivity.
        * exact Hf'.
        * exact Hnd.
        * congruence.
        * lia. }
  destruct G as (added & new & Hv & Hl & Hh & Hf & Hnd & Hlr & Hs).
  exists added, new. repeat split; try assumption.
  - intros n -> Hb. rewrite Hl. apply filter_range_count. exact Hb.
  - intros -> ->. rewrite Hl, filter_range_count by lia. reflexivity.
Qed.

End Extras.

(** * Further concrete runs *)

Section MoreRuns.
Import MetropolisHastingsMCMC.

Lemma strict_draw_first :
  @mvn_rvs strict_random [0] 1 0%nat = Some ([0 + 1], 1%nat).
Proof.
  cbn [mvn_rvs strict_random map]. destruct (Rlt_dec 0 1) as [H|H]; [reflexivity | lra].
Qed.

Lemma strict_draw_refused : @mvn_rvs strict_random [0] (1 * -1) 2%nat = None.
Proof.
  cbn [mvn_rvs strict_random]. destruct (Rlt_dec 0 (1 * -1)) as [H|H]; [lra | reflexivity].
Qed.

(** the first attempt, with stepsize 1, is rejected and leaves the
    stepsize at -1 *)
Lemma strict_attempt1 :
  attempt_of MetropolisHastings strict_state = Ret (false, strict_state1).
Proof.
  pose proof (@attempt_MH_run strict_random strict_state 0%nat (demo_oracle [0])
                [0 + 1] 1%nat eq_refl eq_refl strict_draw_first) as H.
  cbv zeta in H. rewrite H.
  assert (E : Rgtb (py_min 1 (exp (fst (oracle (self strict_state) [0 + 1]) -
                                   fst (demo_oracle [0]))))
                   (fst (@uniform strict_random 0 1 1%nat)) = false).
  { apply Rgtb_false. exact demo_ratio_low. }
  rewrite E. reflexivity.
Qed.

(** the second attempt asks scipy for a draw of covariance -1 *)
Lemma strict_attempt2 :
  attempt_of MetropolisHastings strict_state1 = Raise LibraryError.
Proof.
  apply (proj1 (@attempt_refused strict_random strict_state1 0%nat eq_refl)).
  exact strict_draw_refused.
Qed.

Lemma strict_rejections :
  rejections (attempt_of MetropolisHastings) 1 strict_state strict_state1.
Proof.
  eapply rejections_S; [exact strict_attempt1 | apply rejections_O].
Qed.

Lemma demo_update_run :
  exists v s', update_of MetropolisHastings 2 (demo_state MetropolisHastings) = Ret (v, s').
Proof.
  destruct (update_of_run MetropolisHastings 1 _ _ _ 2 demo_rejections demo_attempt2)
    as (cv & _ & H); [lia|].
  eexists. eexists. exact H.
Qed.

Lemma demo_late_update_run :
  exists v s', update_of Hamiltonyan 1 demo_state_late = Ret (v, s').
Proof.
  destruct (@attempt_HMC_accepts demo_random demo_state_late 0%nat (demo_oracle [0]) 2%Z
              eq_refl eq_refl eq_refl) as [s2 Ha].
  { apply Req_le. reflexivity. }
  destruct (update_of_run Hamiltonyan 0 _ _ _ 1 (rejections_O _ demo_state_late) Ha)
    as (cv & _ & H); [lia|].
  eexists. eexists. exact H.
Qed.

Lemma demo_late_chain_run :
  exists vals s', run_chain Hamiltonyan 1 (-1) [0%Z] [] demo_state_late = Ret (vals, s').
Proof.
  destruct demo_late_update_run as (v & s1 & H).
  destruct (update_of_effect _ _ _ _ _ H)
    as (n & new & ev & c' & _ & _ & _ & _ & _ & _ & _ & Hc & _).
  exists [c'], s1.
  cbn [run_chain]. unfold bind at 1. rewrite H.
  unfold bind at 1. unfold attr_set. rewrite Hc. reflexivity.
Qed.

End MoreRuns.

(** * The further theorems on the concrete states *)

Section MoreWitnesses.
Import MetropolisHastingsMCMC.

Lemma X1_update_before_initialize_witness :
  update_of Hamiltonyan 1 (fresh_state Hamiltonyan) = Raise AttributeError.
Proof.
  destruct (@X1_update_before_initialize demo_random) as (_ & H & _).
  exact (H Hamiltonyan 0%nat (fresh_state Hamiltonyan) eq_refl).
Defined.

Lemma X2_update_error_propagates_witness :
  update_of MetropolisHastings 2 strict_state = Raise LibraryError.
Proof.
  exact (@X2_update_error_propagates strict_random MetropolisHastings 1 2 strict_state
           strict_state1 LibraryError strict_rejections strict_attempt2
           (Nat.lt_succ_diag_r 1)).
Defined.

Lemma X3_refused_draw_raises_witness :
  update_of MetropolisHastings 1 strict_state1 = Raise LibraryError.
Proof.
  exact (proj1 (@X3_refused_draw_raises strict_random 0%nat strict_state1 0%nat eq_refl)
               strict_draw_refused).
Defined.

Lemma X5_initialize_effect_witness :
  exists v s', update_of MetropolisHastings 2 (demo_state MetropolisHastings) = Ret (v, s') /\
               initialised MetropolisHastings s'.
Proof.
  destruct demo_update_run as (v & s' & H).
  exists v, s'. split; [exact H|].
  apply (proj2 (proj2 (@X5_initialize_effect demo_random MetropolisHastings))
               2%nat (demo_state MetropolisHastings) v s'); [|exact H].
  unfold initialised. repeat split; discriminate.
Defined.

Lemma X6_update_allocates_only_witness :
  exists v s',
    update_of MetropolisHastings 2 (demo_state MetropolisHastings) = Ret (v, s') /\
    heap s' !!! 0%nat = [0].
Proof.
  destruct demo_update_run as (v & s' & H).
  exists v, s'. split; [exact H|].
  destruct (@X6_update_allocates_only demo_random _ _ _ _ _ H)
    as (n & new & ev & c' & _ & _ & _ & Hk & _).
  exact (Hk 0%nat (Nat.lt_0_succ 0)).
Defined.

Lemma X7_update_returns_log_value_at_current_witness :
  exists v s' c',
    update_of MetropolisHastings 2 (demo_state MetropolisHastings) = Ret (v, s') /\
    current (self s') = Some c' /\ v = fst (oracle (self s') (heap s' !!! c')).
Proof.
  destruct demo_update_run as (v & s' & H).
  destruct (@X7_update_returns_log_value_at_current demo_random _ _ _ _ _ H)
    as (c' & Hc & _ & _ & _ & Hv).
  exists v, s', c'. split; [exact H | split; [exact Hc | exact Hv]].
Defined.

Lemma X8_update_oracle_calls_witness :
  exists v s' n ev,
    update_of MetropolisHastings 2 (demo_state MetropolisHastings) = Ret (v, s') /\
    trace s' = trace (demo_state MetropolisHastings) ++ ev /\
    count_calls ev = ((n + 1) * 1)%nat.
Proof.
  destruct demo_update_run as (v & s' & H).
  destruct (@X8_update_oracle_calls demo_random _ _ _ _ _ H) as (n & ev & _ & Ht & Hc).
  exists v, s', n, ev. split; [exact H | split; [exact Ht | exact Hc]].
Defined.

Lemma rising_draw_below_one : fst (@uniform demo_random 0 1 1%nat) < 1.
Proof. cbn [uniform demo_random fst Nat.ltb Nat.leb]. lra. Qed.

Lemma rising_uphill :
  fst (rising_oracle [0]) <= fst (oracle (self rising_state) [0 + 1]).
Proof. cbn [rising_state self oracle rising_oracle fst vsum fold_right]. lra. Qed.

Lemma X9_MH_accepts_uphill_witness :
  exists s', update_of MetropolisHastings 1 rising_state =
             Ret (fst (rising_oracle [0 + 1]), s').
Proof.
  eexists.
  exact (@X9_MH_accepts_uphill demo_random 0%nat rising_state 0%nat (rising_oracle [0])
           [0 + 1] 1%nat eq_refl eq_refl eq_refl rising_draw_below_one rising_uphill).
Defined.

Lemma X10_Langevin_ratio_bounds_witness :
  exists r, LangevinMCMC.compute_alpha 0%nat (demo_oracle [0]) (demo_state Langevin) =
            Ret (r, demo_state Langevin) /\ 0 <= r <= 1.
Proof.
  eexists. split.
  - exact (@Langevin_alpha_run demo_random (demo_state Langevin) 0%nat (demo_oracle [0])
             (demo_oracle [0]) 0%nat eq_refl eq_refl).
  - exact (proj1 (@X10_Langevin_ratio_bounds demo_random _ _ _ _ _
                    (@Langevin_alpha_run demo_random (demo_state Langevin) 0%nat
                       (demo_oracle [0]) (demo_oracle [0]) 0%nat eq_refl eq_refl))).
Defined.

Lemma X11_Langevin_flat_is_MH_witness :
  LangevinMCMC.compute_alpha 0%nat (flat_oracle [0]) (flat_state Langevin) =
  MetropolisHastingsMCMC.compute_alpha 0%nat (flat_oracle [0]) (flat_state Langevin).
Proof.
  exact (@X11_Langevin_flat_is_MH demo_random (flat_state Langevin) 0%nat 0%nat
           (flat_oracle [0]) (flat_oracle [0]) eq_refl eq_refl eq_refl eq_refl eq_refl).
Defined.

Lemma X12_HMC_no_leapfrog_steps_witness :
  exists r s', HamiltonyanMCMC.transition demo_state_L0 = Ret (r, s') /\
               heap s' !!! 1%nat = [0].
Proof.
  pose proof (@X12_HMC_no_leapfrog_steps demo_random demo_state_L0 0%nat
                (demo_oracle [0]) 0%Z eq_refl (Nat.lt_0_succ 0) eq_refl eq_refl
                (Z.le_refl 0)) as H.
  cbv zeta in H. eexists. eexists. split; [exact H | reflexivity].
Defined.

Lemma X13_HMC_flat_potential_witness :
  exists r s', HamiltonyanMCMC.transition (flat_state Hamiltonyan) = Ret (r, s').
Proof.
  destruct (@X13_HMC_flat_potential demo_random (flat_state Hamiltonyan) 0%nat
              (flat_oracle [0]) 2%Z eq_refl (Nat.lt_0_succ 0) eq_refl eq_refl
              (fun y => eq_refl) eq_refl eq_refl) as (q & ev & _ & H).
  eexists. eexists. exact H.
Defined.

Lemma X14_GradientAccent_initialize_then_update_witness :
  exists s', bind (GradientAccent.initialize 0%nat) (fun _ => GradientAccent.update)
                  demo_ascent = Ret (fst (demo_oracle [0]), s').
Proof.
  eexists.
  exact (proj1 (@X14_GradientAccent_initialize_then_update demo_random demo_ascent 0%nat
                  (Nat.lt_0_succ 0))).
Defined.

Lemma X15_run_chain_effect_witness :
  exists vals s',
    run_chain Hamiltonyan 1 (-1) [0%Z] [] demo_state_late = Ret (vals, s') /\
    length vals = 1%nat.
Proof.
  destruct demo_late_chain_run as (vals & s' & H).
  exists vals, s'. split; [exact H|].
  destruct (@X15_run_chain_effect demo_random _ _ _ _ _ _ _ _ H)
    as (added & new & Hv & Hl & _).
  rewrite Hv. exact Hl.
Defined.

End MoreWitnesses.
